(** * Baccarat score board: derived roads and road reading

    A shallow embedding of [round-result.ts], [roads/down-road.ts] and
    [roads/road.ts], and the properties of the derived-road builder
    [generateDownRoadData], of the prediction [DownRoad.getPrediction] and of
    the grid abstraction [Road] that the specification states. *)

From Stdlib Require Import ZArith QArith Qcanon Lia.
From stdpp Require Import base tactics option numbers list sorting strings gmap.

Local Open Scope Z_scope.

(** * The program *)

(** ** Exceptions and the result of a call that may throw *)

Inductive Exn :=
  | TypeError
  | Error (message : string).

Inductive Result (A : Type) :=
  | Ok (value : A)
  | Throw (e : Exn).

Arguments Ok {A} value.
Arguments Throw {A} e.

Global Instance Result_ret : MRet Result := λ A a, Ok a.

Global Instance Result_bind : MBind Result := λ A B f m,
  match m with
  | Ok a => f a
  | Throw e => Throw e
  end.

Global Instance Result_fmap : FMap Result := λ A B f m,
  match m with
  | Ok a => Ok (f a)
  | Throw e => Throw e
  end.

(** ** round-result.ts *)

Inductive GameResult := Tie | BankerWin | PlayerWin.

Inductive PairResult := NoPair | BankerPair | PlayerPair | AllPair.

Module RoundResult.
Record t := new {
  order : Z;
  result : Z;
  gameResult : GameResult;
  pairResult : PairResult;
}.

(** [RoundResult.from]: a new instance with the fields of [source]. *)
Definition from (source : t) : t :=
  new (order source) (result source) (gameResult source) (pairResult source).
End RoundResult.

(** ** JavaScript numbers, as the grid abstraction tells them apart *)

(** A number is a finite value, written as a rational in lowest terms, or one
    of [NaN], [Infinity], [-Infinity]. *)
Inductive number :=
  | Finite (q : Qc)
  | NaN
  | PosInfinity
  | NegInfinity.

Definition numberOfZ (z : Z) : number := Finite (Qc_of_Z z).

(** [Number.isInteger(n)] *)
Definition Number_isInteger (n : number) : bool :=
  match n with
  | Finite q => bool_decide (Qden (this q) = 1%positive)
  | _ => false
  end.

(** [n <= 0] *)
Definition number_le_0 (n : number) : bool :=
  match n with
  | Finite q => bool_decide (q ≤ 0)%Qc
  | NaN => false
  | PosInfinity => false
  | NegInfinity => true
  end.

(** The array index a number used as a property key denotes, if any. *)
Definition toIndex (n : number) : option Z :=
  match n with
  | Finite q => if Number_isInteger n then Some (Qnum (this q)) else None
  | _ => None
  end.

(** ** roads/road.ts *)

(** [arr[index]] of a JavaScript array: [undefined] outside its bounds. *)
Definition arrayGet {A} (arr : list A) (index : Z) : option A :=
  if decide (0 ≤ index) then arr !! Z.to_nat index else None.

(** [arr[n]] for a number [n]. *)
Definition arrayAt {A} (arr : list A) (n : number) : option A :=
  toIndex n ≫= arrayGet arr.

Abbreviation RoadRow T := (list (option T)) (only parsing).
Abbreviation RoadArray T := (list (list (option T))) (only parsing).

(** [array[rowIndex][columnIndex]]: reading a column of a row that does not
    exist is a [TypeError]; a column outside the row, or an unfilled
    position of it, reads as [undefined]. *)
Definition readItem {T} (array : RoadArray T) (rowIndex columnIndex : Z)
  : Result (option T) :=
  match arrayGet array rowIndex with
  | None => Throw TypeError
  | Some row => Ok (mjoin (arrayGet row columnIndex))
  end.

(** [typeof item === 'undefined'] *)
Definition isUndefined {A} (item : option A) : bool :=
  match item with
  | None => true
  | Some _ => false
  end.

(** [for (let i = 0; i < n; i++) body], threading the loop state; an
    exception of the body ends the loop. *)
Definition forLoop {S} (n : nat) (body : S → nat → Result S) (init : S)
  : Result S :=
  foldl (λ acc i, acc ≫= λ s, body s i) (Ok init) (seq 0 n).

(** [arr.forEach(body)], threading the state the callback updates. *)
Definition forEach {A S} (arr : list A) (body : S → A → Result S) (init : S)
  : Result S :=
  foldl (λ acc x, acc ≫= λ s, body s x) (Ok init) arr.

Module Road.
(** An instance; [array] is the abstract member the concrete road
    supplies, [results] the reference to the array of rounds. *)
Record t (T : Type) := mk {
  row : number;
  column : number;
  results : positive;
  array : list (list (option T));
}.
Arguments mk {T} row column results array.
Arguments row {T} _.
Arguments column {T} _.
Arguments results {T} _.
Arguments array {T} _.

Definition invalidDimension : Exn :=
  Error "Row/Column must be positive integer".

(** The constructor. *)
Definition new {T} (array : list (list (option T)))
  (row column : number) (results : positive) : Result (t T) :=
  if negb (Number_isInteger row)
     || negb (Number_isInteger column)
     || number_le_0 row
     || number_le_0 column
  then Throw invalidDimension
  else Ok (mk row column results array).

Definition rowCount {T} (this : t T) : number := row this.

Definition columnCount {T} (this : t T) : number := column this.

Definition getItem {T} (this : t T) (rowIndex columnIndex : number)
  : Result (option T) :=
  match arrayAt (array this) rowIndex with
  | None => Throw TypeError
  | Some row => Ok (mjoin (arrayAt row columnIndex))
  end.
End Road.

(** ** roads/down-road.ts: the builder of the derived roads *)

Module BigRoadItem.
(** Modelled from the spec: the cell type [BigRoadItem] is declared in
    [roads/big-road.ts], which is not among the sources; the builder reads
    its [order] field only. *)
Record t := new { order : Z }.
End BigRoadItem.

Module DownRoadItem.
Record t := new {
  order : Z;
  repetition : bool;
}.
End DownRoadItem.

Inductive DownRoadGap := BigEyeRoadGap | SmallRoadGap | CockroachRoadGap.

Definition gapValue (rowGap : DownRoadGap) : Z :=
  match rowGap with
  | BigEyeRoadGap => 1
  | SmallRoadGap => 2
  | CockroachRoadGap => 3
  end.

Module IndexItem.
Record t := new {
  rowIndex : nat;
  columnIndex : nat;
  order : Z;
}.
End IndexItem.

(** [Math.max(0, ...bigRoadGraph.map(row => row.length))] *)
Definition maxColumnCount {T} (bigRoadGraph : RoadArray T) : nat :=
  foldl Nat.max 0%nat (length <$> bigRoadGraph).

(** The block that sets [beginIndex]: both items are read first; [None] is
    the branch that returns the empty [downGraphArr]. *)
Definition beginIndex (bigRoadGraph : RoadArray BigRoadItem.t)
  (rowGap : DownRoadGap) : Result (option Z) :=
  item1 ← readItem bigRoadGraph 1 (gapValue rowGap);
  item2 ← readItem bigRoadGraph 0 (gapValue rowGap + 1);
  match item1, item2 with
  | Some item1, _ => Ok (Some (BigRoadItem.order item1))
  | None, Some item2 => Ok (Some (BigRoadItem.order item2))
  | None, None => Ok None
  end.

(** The body of the inner loop over the rows of one column. *)
Definition scanCell (bigRoadGraph : RoadArray BigRoadItem.t)
  (columnIndex : nat) (st : nat * list IndexItem.t) (rowIndex : nat)
  : Result (nat * list IndexItem.t) :=
  item ← readItem bigRoadGraph (Z.of_nat rowIndex) (Z.of_nat columnIndex);
  match item with
  | Some item =>
      Ok ((st.1 + 1)%nat,
          st.2 ++ [IndexItem.new rowIndex columnIndex (BigRoadItem.order item)])
  | None => Ok st
  end.

(** The body of the outer loop: one column, top to bottom. *)
Definition scanColumn (bigRoadGraph : RoadArray BigRoadItem.t)
  (st : list IndexItem.t * list nat) (columnIndex : nat)
  : Result (list IndexItem.t * list nat) :=
  r ← forLoop (length bigRoadGraph) (scanCell bigRoadGraph columnIndex)
        (0%nat, st.1);
  Ok (r.2, st.2 ++ [r.1]).

(** [indexArr.sort((a, b) => a.order - b.order)]: the comparator is
    consistent, so the result is the stable sort by [order]; written as the
    insertion sort that keeps equal orders in their original sequence. *)
Fixpoint insertByOrder (x : IndexItem.t) (l : list IndexItem.t)
  : list IndexItem.t :=
  match l with
  | [] => [x]
  | y :: l' =>
      if bool_decide (IndexItem.order x ≤ IndexItem.order y)
      then x :: y :: l'
      else y :: insertByOrder x l'
  end.

Definition sortByOrder (l : list IndexItem.t) : list IndexItem.t :=
  foldr insertByOrder [] l.

(** The callback of [indexArr.forEach]. *)
Definition pushMark (bigRoadGraph : RoadArray BigRoadItem.t)
  (rowGap : DownRoadGap) (lengthArr : list nat) (beginIndex : Z)
  (downGraphArr : list DownRoadItem.t) (item : IndexItem.t)
  : Result (list DownRoadItem.t) :=
  let rowIndex := Z.of_nat (IndexItem.rowIndex item) in
  let columnIndex := Z.of_nat (IndexItem.columnIndex item) in
  if bool_decide (beginIndex ≤ IndexItem.order item) then
    if bool_decide (rowIndex = 0) then
      Ok (downGraphArr ++
            [DownRoadItem.new (IndexItem.order item)
               (bool_decide
                  (arrayGet lengthArr (columnIndex - gapValue rowGap - 1) =
                   arrayGet lengthArr (columnIndex - 1)))])
    else
      lastItem ← readItem bigRoadGraph (rowIndex - 1)
                    (columnIndex - gapValue rowGap);
      targetItem ← readItem bigRoadGraph rowIndex
                      (columnIndex - gapValue rowGap);
      Ok (downGraphArr ++
            [DownRoadItem.new (IndexItem.order item)
               (isUndefined lastItem || negb (isUndefined targetItem))])
  else Ok downGraphArr.

Definition generateDownRoadData (bigRoadGraph : RoadArray BigRoadItem.t)
  (rowGap : DownRoadGap) : Result (list DownRoadItem.t) :=
  let maxColumnCount := maxColumnCount bigRoadGraph in
  let downGraphArr : list DownRoadItem.t := [] in
  b ← beginIndex bigRoadGraph rowGap;
  match b with
  | None => Ok downGraphArr
  | Some beginIndex =>
      scanned ← forLoop maxColumnCount (scanColumn bigRoadGraph) ([], []);
      let indexArr := sortByOrder scanned.1 in
      let lengthArr := scanned.2 in
      forEach indexArr (pushMark bigRoadGraph rowGap lengthArr beginIndex)
        downGraphArr
  end.

(** ** The store: round objects and arrays of references to them *)

Record Store := mkStore {
  objects : gmap positive RoundResult.t;
  arrays : gmap positive (list positive);
}.

(** A computation that reads and updates the store and may throw; the store
    survives an exception. *)
Definition Heap (A : Type) : Type := Store → Result A * Store.

Global Instance Heap_ret : MRet Heap := λ A a σ, (Ok a, σ).

Global Instance Heap_bind : MBind Heap := λ A B f m σ,
  match m σ with
  | (Ok a, σ') => f a σ'
  | (Throw e, σ') => (Throw e, σ')
  end.

Definition liftResult {A} (r : Result A) : Heap A := λ σ, (r, σ).

(** [new RoundResult(...)]: a new object, at a reference no object has. *)
Definition newObject (v : RoundResult.t) : Heap positive := λ σ,
  let l := fresh (dom (objects σ)) in
  (Ok l, mkStore (<[l := v]> (objects σ)) (arrays σ)).

(** Reading the fields of the object behind a reference. *)
Definition readObject (l : positive) : Heap RoundResult.t := λ σ,
  match objects σ !! l with
  | Some v => (Ok v, σ)
  | None => (Throw TypeError, σ)
  end.

(** A new array with the given elements. *)
Definition newArray (xs : list positive) : Heap positive := λ σ,
  let a := fresh (dom (arrays σ)) in
  (Ok a, mkStore (objects σ) (<[a := xs]> (arrays σ))).

Definition readArray (a : positive) : Heap (list positive) := λ σ,
  match arrays σ !! a with
  | Some xs => (Ok xs, σ)
  | None => (Throw TypeError, σ)
  end.

(** [arr.push(x)]: the array behind the reference is updated in place. *)
Definition Array_push (a : positive) (x : positive) : Heap unit := λ σ,
  match arrays σ !! a with
  | Some xs => (Ok (), mkStore (objects σ) (<[a := xs ++ [x]]> (arrays σ)))
  | None => (Throw TypeError, σ)
  end.

Fixpoint mapHeap {A B} (f : A → Heap B) (l : list A) : Heap (list B) :=
  match l with
  | [] => mret []
  | x :: l' => y ← f x; ys ← mapHeap f l'; mret (y :: ys)
  end.

(** [arr.map(f)]: a new array of the images. *)
Definition Array_map (f : positive → Heap positive) (a : positive)
  : Heap positive :=
  xs ← readArray a;
  ys ← mapHeap f xs;
  newArray ys.

(** [RoundResult.from(source)] in the store: the fields of [source] are
    read and a new instance is made of them. *)
Definition RoundResult_from (source : positive) : Heap positive :=
  v ← readObject source;
  newObject (RoundResult.from v).

(** ** roads/down-road.ts: the class [DownRoad] *)

Module DownRoad.
(** The members of [this] that [getPrediction] reads. *)
Record t := mk {
  row : number;
  column : number;
  roundResults : positive;
}.
End DownRoad.

Section Prediction.

(** Modelled from the spec: the class [SharedBigRoad] of
    [roads/shared-big-road.ts] is not among the sources. The
    specification gives the primary-grid collaborator as a deterministic
    pure function of the rounds; [SharedBigRoad_rawArray row column
    rounds] stands for [new SharedBigRoad(row, column, rounds).rawArray]. *)
Variable SharedBigRoad_rawArray :
  number → number → list RoundResult.t → list (list (option BigRoadItem.t)).

(** The construction of the big road over the array of rounds behind
    [results]: it reads the rounds and leaves the store as it is. *)
Definition SharedBigRoad_new (row column : number) (results : positive)
  : Heap (list (list (option BigRoadItem.t))) :=
  refs ← readArray results;
  rounds ← mapHeap readObject refs;
  mret (SharedBigRoad_rawArray row column rounds).

Definition getPrediction (this : DownRoad.t) (fakeNextRound : positive)
  (downRoadGap : DownRoadGap) : Heap (option bool) :=
  fakeRoundResults ← Array_map RoundResult_from (DownRoad.roundResults this);
  _ ← Array_push fakeRoundResults fakeNextRound;
  rawArray ← SharedBigRoad_new (DownRoad.row this) (DownRoad.column this)
               fakeRoundResults;
  fakeDownRoadData ← liftResult (generateDownRoadData rawArray downRoadGap);
  let fakeNextDownRoadItem :=
    arrayGet fakeDownRoadData (Z.of_nat (length fakeDownRoadData) - 1) in
  mret (match fakeNextDownRoadItem with
        | Some item => Some (DownRoadItem.repetition item)
        | None => None
        end).

(** The primary grid of the simulation: the grid of the recorded rounds
    [vs] followed by the hypothetical round [fv]. *)
Definition simulatedGrid (this : DownRoad.t) (vs : list RoundResult.t)
  (fv : RoundResult.t) : list (list (option BigRoadItem.t)) :=
  SharedBigRoad_rawArray (DownRoad.row this) (DownRoad.column this)
    (vs ++ [fv]).

End Prediction.

(** * The notions of the specification *)

(** ** The primary grid as the builder sees it *)

(** The cell at a position, or absent: absent too where the row does not
    exist. *)
Definition itemAt {T} (array : RoadArray T) (rowIndex columnIndex : Z)
  : option T :=
  arrayGet array rowIndex ≫= λ row, mjoin (arrayGet row columnIndex).

Definition cellAt {T} (array : RoadArray T) (rowIndex columnIndex : nat)
  : option T :=
  array !! rowIndex ≫= λ row, mjoin (row !! columnIndex).

(** The occupied cells of one column, top to bottom, as the scan records
    them. *)
Definition cellsOfColumn (bigRoadGraph : RoadArray BigRoadItem.t)
  (columnIndex : nat) : list IndexItem.t :=
  omap (λ rowIndex,
          (λ item, IndexItem.new rowIndex columnIndex (BigRoadItem.order item))
            <$> cellAt bigRoadGraph rowIndex columnIndex)
       (seq 0 (length bigRoadGraph)).

(** The occupied-cell length of a column. *)
Definition columnLength (bigRoadGraph : RoadArray BigRoadItem.t)
  (columnIndex : nat) : nat :=
  length (cellsOfColumn bigRoadGraph columnIndex).

(** The length of the column a (possibly negative) index refers to; absent
    outside the columns of the grid. *)
Definition lengthOfColumn (bigRoadGraph : RoadArray BigRoadItem.t)
  (columnIndex : Z) : option nat :=
  if decide (0 ≤ columnIndex < Z.of_nat (maxColumnCount bigRoadGraph))
  then Some (columnLength bigRoadGraph (Z.to_nat columnIndex))
  else None.

(** All recorded cells, column by column. *)
Definition recordedCells (bigRoadGraph : RoadArray BigRoadItem.t)
  : list IndexItem.t :=
  seq 0 (maxColumnCount bigRoadGraph) ≫= cellsOfColumn bigRoadGraph.

(** The recorded cells that produce a mark, in the sequence of their
    marks. *)
Definition emittingCells (bigRoadGraph : RoadArray BigRoadItem.t)
  (beginIndex : Z) : list IndexItem.t :=
  filter (λ item, beginIndex ≤ IndexItem.order item)
         (sortByOrder (recordedCells bigRoadGraph)).

(** The mark at the same place of the output as the cell in
    [emittingCells]. *)
Definition emittedFor (bigRoadGraph : RoadArray BigRoadItem.t)
  (beginIndex : Z) (out : list DownRoadItem.t)
  (item : IndexItem.t) (mark : DownRoadItem.t) : Prop :=
  ∃ i : nat, emittingCells bigRoadGraph beginIndex !! i = Some item
             ∧ out !! i = Some mark.

Definition orderLe (a b : IndexItem.t) : Prop :=
  IndexItem.order a ≤ IndexItem.order b.

(** The mark the callback pushes for a recorded cell, with the length array
    and the grid reads written as the lengths of columns and the presence of
    cells. *)
Definition markOf (bigRoadGraph : RoadArray BigRoadItem.t)
  (rowGap : DownRoadGap) (item : IndexItem.t) : DownRoadItem.t :=
  let rowIndex := Z.of_nat (IndexItem.rowIndex item) in
  let columnIndex := Z.of_nat (IndexItem.columnIndex item) in
  DownRoadItem.new (IndexItem.order item)
    (if bool_decide (rowIndex = 0) then
       bool_decide
         (lengthOfColumn bigRoadGraph (columnIndex - gapValue rowGap - 1) =
          lengthOfColumn bigRoadGraph (columnIndex - 1))
     else
       isUndefined
         (itemAt bigRoadGraph (rowIndex - 1) (columnIndex - gapValue rowGap))
       || negb (isUndefined
                  (itemAt bigRoadGraph rowIndex
                     (columnIndex - gapValue rowGap)))).

(** The builder begins at order [b]: [b] is its [beginIndex], it returns,
    every mark has an order of at least [b], a recorded cell has a mark
    exactly when its order is at least [b], and the marks follow the cells
    of [emittingCells] one for one with the same orders. *)
Definition marksFrom (bigRoadGraph : RoadArray BigRoadItem.t)
  (rowGap : DownRoadGap) (b : Z) : Prop :=
  beginIndex bigRoadGraph rowGap = Ok (Some b)
  ∧ ∃ out,
      generateDownRoadData bigRoadGraph rowGap = Ok out
      ∧ (∀ mark, mark ∈ out → b ≤ DownRoadItem.order mark)
      ∧ (∀ r c cell,
           cellAt bigRoadGraph r c = Some cell →
           b ≤ BigRoadItem.order cell ↔
           ∃ mark, emittedFor bigRoadGraph b out
                     (IndexItem.new r c (BigRoadItem.order cell)) mark)
      ∧ Forall2 (λ item mark, DownRoadItem.order mark = IndexItem.order item)
          (emittingCells bigRoadGraph b) out.

(** The cells of the grid carry pairwise distinct orders. *)
Definition uniqueOrders (bigRoadGraph : RoadArray BigRoadItem.t) : Prop :=
  ∀ r1 c1 r2 c2 cell1 cell2,
    cellAt bigRoadGraph r1 c1 = Some cell1 →
    cellAt bigRoadGraph r2 c2 = Some cell2 →
    BigRoadItem.order cell1 = BigRoadItem.order cell2 →
    r1 = r2 ∧ c1 = c2.

(** ** Dimensions and row indices *)

(** A positive integer. *)
Definition positiveInteger (n : number) : Prop :=
  ∃ z : Z, 0 < z ∧ n = numberOfZ z.

(** A row index within the bounds of an array of [len] rows. *)
Definition rowInBounds (n : number) (len : nat) : Prop :=
  ∃ i : nat, (i < len)%nat ∧ n = numberOfZ (Z.of_nat i).

(** ** Histories in the store *)

(** The references [refs] hold the rounds [vs], in this sequence. *)
Definition holds (σ : Store) (refs : list positive)
  (vs : list RoundResult.t) : Prop :=
  Forall2 (λ l v, objects σ !! l = Some v) refs vs.

(** What a prediction makes of the marks of the simulated road. *)
Definition lastRepetition (marks : list DownRoadItem.t) : option bool :=
  DownRoadItem.repetition <$> last marks.

(** Modelled from the spec: the builder of the primary grid
    ([SharedBigRoad], [BigRoad]) is not among the sources. [grownBy before
    after] is what the specification says of the primary grid before and
    after a round is appended to the history: the row count is fixed; the
    rounds are appended only, never edited or removed, so every cell stays
    where it is with the order of its round; and a column is one maximal
    run of rounds, so it receives no cell once the next column has begun. *)
Definition grownBy (before after : list (list (option BigRoadItem.t))) : Prop :=
  length after = length before
  ∧ (∀ r c cell, cellAt before r c = Some cell → cellAt after r c = Some cell)
  ∧ (∀ c, is_Some (cellAt before 0 (S c)) →
          ∀ r, cellAt after r c = cellAt before r c).

(** ** Grids and stores of the examples *)

(** The scenario of the specification: column lengths 4, 3, 2 and row-0
    orders 1, 5, 8. *)
Definition scenarioGrid : RoadArray BigRoadItem.t :=
  [ [Some (BigRoadItem.new 1); Some (BigRoadItem.new 5); Some (BigRoadItem.new 8)];
    [Some (BigRoadItem.new 2); Some (BigRoadItem.new 6); Some (BigRoadItem.new 9)];
    [Some (BigRoadItem.new 3); Some (BigRoadItem.new 7)];
    [Some (BigRoadItem.new 4)] ].

(** A primary grid with columns of lengths 1, 2, 1, 1; the cell of order 4
    opens column 3. *)
Definition smallRoadGrid : RoadArray BigRoadItem.t :=
  [ [Some (BigRoadItem.new 0); Some (BigRoadItem.new 1);
     Some (BigRoadItem.new 3); Some (BigRoadItem.new 4)];
    [None; Some (BigRoadItem.new 2)] ].

(** The primary grid of a history in which every round opens a column: one
    cell per round on row 0, and an empty row 1. *)
Definition oneRoundPerColumn (row column : number)
  (rounds : list RoundResult.t) : list (list (option BigRoadItem.t)) :=
  [ (λ round, Some (BigRoadItem.new (RoundResult.order round))) <$> rounds;
    [] ].

(** A store with a history of three rounds behind the array 1 and a
    hypothetical fourth round at the reference 4. *)
Definition threeRounds : Store :=
  mkStore
    (<[1%positive := RoundResult.new 0 8 BankerWin NoPair]>
       (<[2%positive := RoundResult.new 1 7 PlayerWin NoPair]>
          (<[3%positive := RoundResult.new 2 9 BankerWin BankerPair]>
             (<[4%positive := RoundResult.new 3 0 PlayerWin NoPair]> ∅))))
    (<[1%positive := [1%positive; 2%positive; 3%positive]]> ∅).

Definition sixByTen : DownRoad.t :=
  DownRoad.mk (numberOfZ 6) (numberOfZ 10) 1%positive.

(** ** Further notions and examples *)

(** The occupied cells of a column form a run that starts at row 0. *)
Definition columnContiguous (bigRoadGraph : list (list (option BigRoadItem.t)))
  (columnIndex : nat) : Prop :=
  ∀ r, is_Some (cellAt bigRoadGraph (S r) columnIndex) →
       is_Some (cellAt bigRoadGraph r columnIndex).

(** The cells of [scenarioGrid] in rows filled up to four columns with
    unfilled positions, followed by two empty rows. *)
Definition paddedScenarioGrid : list (list (option BigRoadItem.t)) :=
  [ [Some (BigRoadItem.new 1); Some (BigRoadItem.new 5);
     Some (BigRoadItem.new 8); None];
    [Some (BigRoadItem.new 2); Some (BigRoadItem.new 6);
     Some (BigRoadItem.new 9); None];
    [Some (BigRoadItem.new 3); Some (BigRoadItem.new 7); None; None];
    [Some (BigRoadItem.new 4); None; None; None];
    [];
    [None] ].

(** A store whose history array lists the same round object twice. *)
Definition aliasedHistory : Store :=
  mkStore
    (<[1%positive := RoundResult.new 0 8 BankerWin NoPair]> ∅)
    (<[1%positive := [1%positive; 1%positive]]> ∅).

(** The rounds of [threeRounds] at other references, behind the array 7. *)
Definition threeRoundsElsewhere : Store :=
  mkStore
    (<[12%positive := RoundResult.new 0 8 BankerWin NoPair]>
       (<[5%positive := RoundResult.new 1 7 PlayerWin NoPair]>
          (<[9%positive := RoundResult.new 2 9 BankerWin BankerPair]>
             (<[2%positive := RoundResult.new 3 0 PlayerWin NoPair]> ∅))))
    (<[7%positive := [12%positive; 5%positive; 9%positive]]> ∅).

Definition sixByTenElsewhere : DownRoad.t :=
  DownRoad.mk (numberOfZ 6) (numberOfZ 10) 7%positive.

(** One grid and the grid after cells were added in its rightmost occupied
    column or to the right of it: the rows remain, every cell stays where
    it is, every column to the left of an occupied column is as it was, and
    every added cell has an order greater than that of all the cells that
    were there. *)
Definition appendedRight (before after : list (list (option BigRoadItem.t)))
  : Prop :=
  (length before ≤ length after)%nat
  ∧ (∀ r c cell, cellAt before r c = Some cell → cellAt after r c = Some cell)
  ∧ (∀ r c cell c' r',
       cellAt before r c = Some cell → (c' < c)%nat →
       cellAt after r' c' = cellAt before r' c')
  ∧ (∀ r c cell r' c' cell',
       cellAt after r c = Some cell → cellAt before r c = None →
       cellAt before r' c' = Some cell' →
       BigRoadItem.order cell' < BigRoadItem.order cell).

(** Two columns, and the same with a third column begun. *)
Definition twoColumns : list (list (option BigRoadItem.t)) :=
  [ [Some (BigRoadItem.new 0); Some (BigRoadItem.new 1)];
    [None; Some (BigRoadItem.new 2)] ].

Definition threeColumns : list (list (option BigRoadItem.t)) :=
  [ [Some (BigRoadItem.new 0); Some (BigRoadItem.new 1);
     Some (BigRoadItem.new 3)];
    [None; Some (BigRoadItem.new 2)] ].

(** A grid of a single row with three cells. *)
Definition oneRowGrid : list (list (option BigRoadItem.t)) :=
  [ [Some (BigRoadItem.new 0); Some (BigRoadItem.new 1);
     Some (BigRoadItem.new 2)] ].

(** Modelled from the spec: the primary grid has the fixed row count of the
    road; for the row count 1 that is a single row. [oneRowRoad] is the
    grid of a history in which every round opens a column, in a road of one
    row: one cell per round on row 0 and no row 1. *)
Definition oneRowRoad (row column : number)
  (rounds : list RoundResult.t) : list (list (option BigRoadItem.t)) :=
  [ (λ round, Some (BigRoadItem.new (RoundResult.order round))) <$> rounds ].

Definition oneByTen : DownRoad.t :=
  DownRoad.mk (numberOfZ 1) (numberOfZ 10) 1%positive.

(** * Properties *)

(** ** Loops whose body does not throw *)

Lemma forEach_throw {A S} (l : list A) (body : S → A → Result S) e :
  foldl (λ acc x, acc ≫= λ s, body s x) (Throw e) l = Throw e.
Proof. induction l as [|x l IH]; [done|]. simpl. exact IH. Qed.

Lemma forEach_app {A S} (l1 l2 : list A) (body : S → A → Result S) init :
  forEach (l1 ++ l2) body init = forEach l1 body init ≫= forEach l2 body.
Proof.
  unfold forEach. rewrite foldl_app.
  destruct (foldl _ (Ok init) l1) as [s|e]; [done|].
  apply forEach_throw.
Qed.

Lemma forEach_cons {A S} (x : A) (l : list A) (body : S → A → Result S) init :
  forEach (x :: l) body init = body init x ≫= forEach l body.
Proof.
  unfold forEach. simpl. destruct (body init x) as [s|e]; [done|].
  apply forEach_throw.
Qed.

Lemma forEach_pure {A S} (l : list A) (body : S → A → Result S)
    (f : S → A → S) init :
  (∀ s x, x ∈ l → body s x = Ok (f s x)) →
  forEach l body init = Ok (foldl f init l).
Proof.
  revert init. induction l as [|x l IH]; intros init Hbody; [done|].
  rewrite forEach_cons, (Hbody init x) by left. simpl.
  apply IH. intros s y Hy. apply Hbody. by right.
Qed.

Lemma forLoop_pure {S} n (body : S → nat → Result S) (f : S → nat → S) init :
  (∀ s i, (i < n)%nat → body s i = Ok (f s i)) →
  forLoop n body init = Ok (foldl f init (seq 0 n)).
Proof.
  intros Hbody. apply (forEach_pure (seq 0 n)).
  intros s i Hi. apply Hbody. apply elem_of_seq in Hi. lia.
Qed.

(** ** Reading the grid *)

Lemma arrayGet_of_nat {A} (arr : list A) (n : nat) :
  arrayGet arr (Z.of_nat n) = arr !! n.
Proof.
  unfold arrayGet. rewrite decide_True by lia. by rewrite Nat2Z.id.
Qed.

Lemma arrayGet_negative {A} (arr : list A) (index : Z) :
  index < 0 → arrayGet arr index = None.
Proof. intros. unfold arrayGet. by rewrite decide_False by lia. Qed.

Lemma arrayGet_is_Some {A} (arr : list A) (index : Z) :
  is_Some (arrayGet arr index) ↔ 0 ≤ index < Z.of_nat (length arr).
Proof.
  unfold arrayGet. case_decide.
  - rewrite lookup_lt_is_Some. lia.
  - split; [by intros [? ?]|lia].
Qed.

Lemma itemAt_of_nat {T} (array : RoadArray T) (rowIndex columnIndex : nat) :
  itemAt array (Z.of_nat rowIndex) (Z.of_nat columnIndex)
  = cellAt array rowIndex columnIndex.
Proof.
  unfold itemAt, cellAt. rewrite arrayGet_of_nat.
  destruct (array !! rowIndex) as [row|]; [|done]. simpl.
  by rewrite arrayGet_of_nat.
Qed.

Lemma readItem_itemAt {T} (array : RoadArray T) (rowIndex columnIndex : Z) :
  0 ≤ rowIndex < Z.of_nat (length array) →
  readItem array rowIndex columnIndex = Ok (itemAt array rowIndex columnIndex).
Proof.
  intros Hrow. apply arrayGet_is_Some in Hrow as [row Hrow].
  unfold readItem, itemAt. by rewrite Hrow.
Qed.

Lemma readItem_no_row {T} (array : RoadArray T) (rowIndex columnIndex : Z) :
  ¬ (0 ≤ rowIndex < Z.of_nat (length array)) →
  readItem array rowIndex columnIndex = Throw TypeError.
Proof.
  intros Hrow. unfold readItem.
  destruct (arrayGet array rowIndex) as [row|] eqn:Hget; [|done].
  exfalso. apply Hrow, arrayGet_is_Some. eauto.
Qed.

Lemma readItem_cellAt {T} (array : RoadArray T) (rowIndex columnIndex : nat) :
  (rowIndex < length array)%nat →
  readItem array (Z.of_nat rowIndex) (Z.of_nat columnIndex)
  = Ok (cellAt array rowIndex columnIndex).
Proof.
  intros. rewrite readItem_itemAt by lia. by rewrite itemAt_of_nat.
Qed.

Lemma cellAt_row_lt {T} (array : RoadArray T) r c (item : T) :
  cellAt array r c = Some item → (r < length array)%nat.
Proof.
  unfold cellAt. intros H. destruct (array !! r) as [row|] eqn:Hrow; [|done].
  by apply lookup_lt_Some in Hrow.
Qed.

Lemma maxColumnCount_foldl (ns : list nat) (m : nat) :
  ∀ n, n = m ∨ n ∈ ns → (n ≤ foldl Nat.max m ns)%nat.
Proof.
  revert m. induction ns as [|k ns IH]; intros m n [->|Hn]; simpl.
  - done.
  - by apply elem_of_nil in Hn.
  - etrans; [|apply IH; by left]. lia.
  - apply elem_of_cons in Hn as [->|Hn].
    + etrans; [|apply IH; by left]. lia.
    + apply IH. by right.
Qed.

Lemma cellAt_column_lt {T} (array : RoadArray T) r c (item : T) :
  cellAt array r c = Some item → (c < maxColumnCount array)%nat.
Proof.
  unfold cellAt. intros H. destruct (array !! r) as [row|] eqn:Hrow; [|done].
  simpl in H. destruct (row !! c) as [o|] eqn:Hc; [|done].
  apply lookup_lt_Some in Hc.
  eapply Nat.lt_le_trans; [exact Hc|].
  apply maxColumnCount_foldl. right.
  apply list_elem_of_fmap. exists row. split; [done|].
  by eapply list_elem_of_lookup_2.
Qed.

(** ** The scan of the columns *)

Lemma scanCell_cellAt (bigRoadGraph : RoadArray BigRoadItem.t) columnIndex
    (st : nat * list IndexItem.t) (rowIndex : nat) :
  (rowIndex < length bigRoadGraph)%nat →
  scanCell bigRoadGraph columnIndex st rowIndex
  = Ok (match cellAt bigRoadGraph rowIndex columnIndex with
        | Some item =>
            ((st.1 + 1)%nat,
             st.2 ++ [IndexItem.new rowIndex columnIndex
                        (BigRoadItem.order item)])
        | None => st
        end).
Proof.
  intros Hrow. unfold scanCell. rewrite readItem_cellAt by done. simpl.
  by destruct (cellAt bigRoadGraph rowIndex columnIndex).
Qed.

Lemma scanCell_cells (bigRoadGraph : RoadArray BigRoadItem.t) columnIndex
    (rows : list nat) (n : nat) (acc : list IndexItem.t) :
  (∀ r, r ∈ rows → (r < length bigRoadGraph)%nat) →
  forEach rows (scanCell bigRoadGraph columnIndex) (n, acc)
  = Ok ((n + length (omap (λ rowIndex,
            (λ item, IndexItem.new rowIndex columnIndex (BigRoadItem.order item))
              <$> cellAt bigRoadGraph rowIndex columnIndex) rows))%nat,
        acc ++ omap (λ rowIndex,
            (λ item, IndexItem.new rowIndex columnIndex (BigRoadItem.order item))
              <$> cellAt bigRoadGraph rowIndex columnIndex) rows).
Proof.
  revert n acc. induction rows as [|r rows IH]; intros n acc Hrows.
  - simpl. unfold forEach. simpl. by rewrite Nat.add_0_r, app_nil_r.
  - rewrite forEach_cons, scanCell_cellAt by (apply Hrows; left).
    simpl. destruct (cellAt bigRoadGraph r columnIndex) as [item|]; simpl.
    + rewrite IH by (intros; apply Hrows; by right).
      rewrite <- Nat.add_assoc, <- app_assoc. reflexivity.
    + apply IH. intros; apply Hrows; by right.
Qed.

Lemma scanColumn_cells (bigRoadGraph : RoadArray BigRoadItem.t) st columnIndex :
  scanColumn bigRoadGraph st columnIndex
  = Ok (st.1 ++ cellsOfColumn bigRoadGraph columnIndex,
        st.2 ++ [columnLength bigRoadGraph columnIndex]).
Proof.
  unfold scanColumn, forLoop.
  pose proof (scanCell_cells bigRoadGraph columnIndex
                (seq 0 (length bigRoadGraph)) 0 st.1) as H.
  unfold forEach in H. rewrite H.
  - done.
  - intros r Hr. apply elem_of_seq in Hr. lia.
Qed.

Lemma scanColumns_foldl (bigRoadGraph : RoadArray BigRoadItem.t)
    (columns : list nat) (st : list IndexItem.t * list nat) :
  foldl (λ st columnIndex,
           (st.1 ++ cellsOfColumn bigRoadGraph columnIndex,
            st.2 ++ [columnLength bigRoadGraph columnIndex])) st columns
  = (st.1 ++ (columns ≫= cellsOfColumn bigRoadGraph),
     st.2 ++ (columnLength bigRoadGraph <$> columns)).
Proof.
  revert st. induction columns as [|c columns IH]; intros [a b]; simpl.
  - by rewrite !app_nil_r.
  - rewrite IH. simpl. by rewrite <- !app_assoc.
Qed.

Lemma scan_recordedCells (bigRoadGraph : RoadArray BigRoadItem.t) :
  forLoop (maxColumnCount bigRoadGraph) (scanColumn bigRoadGraph) ([], [])
  = Ok (recordedCells bigRoadGraph,
        columnLength bigRoadGraph <$> seq 0 (maxColumnCount bigRoadGraph)).
Proof.
  erewrite forLoop_pure; [|intros; apply scanColumn_cells].
  by rewrite scanColumns_foldl.
Qed.

Lemma lengthArr_lengthOfColumn (bigRoadGraph : RoadArray BigRoadItem.t)
    (columnIndex : Z) :
  arrayGet (columnLength bigRoadGraph <$> seq 0 (maxColumnCount bigRoadGraph))
    columnIndex
  = lengthOfColumn bigRoadGraph columnIndex.
Proof.
  unfold arrayGet, lengthOfColumn.
  destruct (decide (0 ≤ columnIndex)) as [Hpos|Hneg].
  - rewrite list_lookup_fmap. case_decide as Hlt.
    + rewrite lookup_seq_lt by lia. done.
    + rewrite lookup_seq_ge by lia. done.
  - rewrite decide_False by lia. done.
Qed.

Lemma gapValue_pos rowGap : 1 ≤ gapValue rowGap ≤ 3.
Proof. destruct rowGap; simpl; lia. Qed.

Lemma lengthOfColumn_negative (bigRoadGraph : RoadArray BigRoadItem.t)
    (columnIndex : Z) :
  columnIndex < 0 → lengthOfColumn bigRoadGraph columnIndex = None.
Proof. intros. unfold lengthOfColumn. by rewrite decide_False by lia. Qed.

Lemma lengthOfColumn_column (bigRoadGraph : RoadArray BigRoadItem.t)
    (columnIndex : Z) :
  0 ≤ columnIndex < Z.of_nat (maxColumnCount bigRoadGraph) →
  lengthOfColumn bigRoadGraph columnIndex
  = Some (columnLength bigRoadGraph (Z.to_nat columnIndex)).
Proof. intros. unfold lengthOfColumn. by rewrite decide_True by lia. Qed.

Lemma elem_of_cellsOfColumn (bigRoadGraph : RoadArray BigRoadItem.t) c item :
  item ∈ cellsOfColumn bigRoadGraph c ↔
  IndexItem.columnIndex item = c ∧
  ∃ cell, cellAt bigRoadGraph (IndexItem.rowIndex item) c = Some cell
          ∧ IndexItem.order item = BigRoadItem.order cell.
Proof.
  unfold cellsOfColumn. rewrite list_elem_of_omap. split.
  - intros (r & _ & Hr). destruct (cellAt bigRoadGraph r c) as [cell|] eqn:Hc;
      simplify_eq/=. eauto.
  - intros (<- & cell & Hcell & Horder). destruct item as [r c o]. simpl in *.
    exists r. split.
    + apply elem_of_seq. apply cellAt_row_lt in Hcell. lia.
    + rewrite Hcell. simpl. by rewrite Horder.
Qed.

Lemma elem_of_recordedCells (bigRoadGraph : RoadArray BigRoadItem.t) item :
  item ∈ recordedCells bigRoadGraph ↔
  ∃ cell, cellAt bigRoadGraph (IndexItem.rowIndex item)
            (IndexItem.columnIndex item) = Some cell
          ∧ IndexItem.order item = BigRoadItem.order cell.
Proof.
  unfold recordedCells. rewrite list_elem_of_bind. split.
  - intros (c & (-> & H)%elem_of_cellsOfColumn & _). done.
  - intros (cell & Hcell & Horder). exists (IndexItem.columnIndex item). split.
    + apply elem_of_cellsOfColumn. eauto.
    + apply elem_of_seq. apply cellAt_column_lt in Hcell. lia.
Qed.

(** ** The sort by order *)

Lemma insertByOrder_Permutation x l : insertByOrder x l ≡ₚ x :: l.
Proof.
  induction l as [|y l IH]; simpl; [done|].
  case_bool_decide; [done|]. rewrite IH. apply Permutation_swap.
Qed.

Lemma sortByOrder_Permutation l : sortByOrder l ≡ₚ l.
Proof.
  induction l as [|x l IH]; simpl; [done|].
  by rewrite insertByOrder_Permutation, IH.
Qed.

Lemma insertByOrder_sorted x l :
  StronglySorted orderLe l → StronglySorted orderLe (insertByOrder x l).
Proof.
  induction 1 as [|y l Hsorted IH Hall]; simpl.
  - by repeat constructor.
  - case_bool_decide as Hle.
    + constructor; [by constructor|]. constructor; [done|].
      eapply Forall_impl; [exact Hall|]. unfold orderLe in *. intros; lia.
    + constructor; [done|]. rewrite insertByOrder_Permutation.
      constructor; [unfold orderLe; lia|done].
Qed.

Lemma sortByOrder_sorted l : StronglySorted orderLe (sortByOrder l).
Proof.
  induction l as [|x l IH]; simpl; [constructor|].
  by apply insertByOrder_sorted.
Qed.

Lemma elem_of_sortByOrder x l : x ∈ sortByOrder l ↔ x ∈ l.
Proof. by rewrite sortByOrder_Permutation. Qed.

(** ** The marks *)

Lemma pushMark_markOf (bigRoadGraph : RoadArray BigRoadItem.t) rowGap
    beginIndex downGraphArr item :
  (IndexItem.rowIndex item < length bigRoadGraph)%nat →
  pushMark bigRoadGraph rowGap
    (columnLength bigRoadGraph <$> seq 0 (maxColumnCount bigRoadGraph))
    beginIndex downGraphArr item
  = Ok (downGraphArr ++
          (markOf bigRoadGraph rowGap <$>
             filter (λ item, beginIndex ≤ IndexItem.order item) [item])).
Proof.
  intros Hrow. unfold pushMark, markOf.
  rewrite filter_cons, filter_nil. case_bool_decide as Hbegin.
  - rewrite decide_True by done. simpl.
    destruct (decide (Z.of_nat (IndexItem.rowIndex item) = 0)) as [Hzero|Hzero].
    + rewrite !(bool_decide_true (Z.of_nat _ = 0)) by done.
      by rewrite !lengthArr_lengthOfColumn.
    + rewrite !(bool_decide_false (Z.of_nat _ = 0)) by done.
      by rewrite !readItem_itemAt by lia.
  - rewrite decide_False by done. simpl. by rewrite app_nil_r.
Qed.

Lemma forEach_pushMark (bigRoadGraph : RoadArray BigRoadItem.t) rowGap
    beginIndex (items : list IndexItem.t) downGraphArr :
  (∀ item, item ∈ items →
           (IndexItem.rowIndex item < length bigRoadGraph)%nat) →
  forEach items
    (pushMark bigRoadGraph rowGap
       (columnLength bigRoadGraph <$> seq 0 (maxColumnCount bigRoadGraph))
       beginIndex) downGraphArr
  = Ok (downGraphArr ++
          (markOf bigRoadGraph rowGap <$>
             filter (λ item, beginIndex ≤ IndexItem.order item) items)).
Proof.
  revert downGraphArr.
  induction items as [|item items IH]; intros downGraphArr Hrows.
  - unfold forEach. simpl. by rewrite app_nil_r.
  - rewrite forEach_cons, pushMark_markOf by (apply Hrows; left). simpl.
    rewrite IH by (intros; apply Hrows; by right).
    rewrite <- app_assoc, <- fmap_app.
    change (item :: items) with ([item] ++ items). by rewrite filter_app.
Qed.

(** ** The builder, branch by branch *)

Lemma beginIndex_no_row1 (bigRoadGraph : RoadArray BigRoadItem.t) rowGap :
  (length bigRoadGraph < 2)%nat →
  beginIndex bigRoadGraph rowGap = Throw TypeError.
Proof.
  intros Hrows. unfold beginIndex. by rewrite (readItem_no_row bigRoadGraph 1) by lia.
Qed.

Lemma beginIndex_rows (bigRoadGraph : RoadArray BigRoadItem.t) rowGap :
  (2 ≤ length bigRoadGraph)%nat →
  beginIndex bigRoadGraph rowGap
  = Ok (match itemAt bigRoadGraph 1 (gapValue rowGap) with
        | Some item1 => Some (BigRoadItem.order item1)
        | None =>
            match itemAt bigRoadGraph 0 (gapValue rowGap + 1) with
            | Some item2 => Some (BigRoadItem.order item2)
            | None => None
            end
        end).
Proof.
  intros Hrows. unfold beginIndex. rewrite !readItem_itemAt by lia. simpl.
  destruct (itemAt bigRoadGraph 1 (gapValue rowGap)),
    (itemAt bigRoadGraph 0 (gapValue rowGap + 1)); done.
Qed.

Lemma generateDownRoadData_throw (bigRoadGraph : RoadArray BigRoadItem.t)
    rowGap e :
  beginIndex bigRoadGraph rowGap = Throw e →
  generateDownRoadData bigRoadGraph rowGap = Throw e.
Proof. intros H. unfold generateDownRoadData. by rewrite H. Qed.

Lemma generateDownRoadData_no_begin (bigRoadGraph : RoadArray BigRoadItem.t)
    rowGap :
  beginIndex bigRoadGraph rowGap = Ok None →
  generateDownRoadData bigRoadGraph rowGap = Ok [].
Proof. intros H. unfold generateDownRoadData. by rewrite H. Qed.

Lemma generateDownRoadData_begin (bigRoadGraph : RoadArray BigRoadItem.t)
    rowGap b :
  beginIndex bigRoadGraph rowGap = Ok (Some b) →
  generateDownRoadData bigRoadGraph rowGap
  = Ok (markOf bigRoadGraph rowGap <$> emittingCells bigRoadGraph b).
Proof.
  intros H. unfold generateDownRoadData. rewrite H. simpl.
  rewrite scan_recordedCells. simpl.
  rewrite forEach_pushMark; [done|].
  intros item (cell & Hcell & _)%elem_of_sortByOrder%elem_of_recordedCells.
  by eapply cellAt_row_lt.
Qed.

Lemma elem_of_emittingCells (bigRoadGraph : RoadArray BigRoadItem.t) b item :
  item ∈ emittingCells bigRoadGraph b ↔
  b ≤ IndexItem.order item ∧
  ∃ cell, cellAt bigRoadGraph (IndexItem.rowIndex item)
            (IndexItem.columnIndex item) = Some cell
          ∧ IndexItem.order item = BigRoadItem.order cell.
Proof.
  unfold emittingCells.
  by rewrite list_elem_of_filter, elem_of_sortByOrder, elem_of_recordedCells.
Qed.

Lemma emittedFor_markOf (bigRoadGraph : RoadArray BigRoadItem.t) rowGap b
    item mark :
  emittedFor bigRoadGraph b
    (markOf bigRoadGraph rowGap <$> emittingCells bigRoadGraph b) item mark →
  mark = markOf bigRoadGraph rowGap item.
Proof.
  intros (i & Hitem & Hmark). rewrite list_lookup_fmap, Hitem in Hmark.
  by simplify_eq/=.
Qed.

Lemma emittedFor_recorded (bigRoadGraph : RoadArray BigRoadItem.t) rowGap b
    r c cell :
  cellAt bigRoadGraph r c = Some cell →
  b ≤ BigRoadItem.order cell →
  ∃ mark,
    emittedFor bigRoadGraph b
      (markOf bigRoadGraph rowGap <$> emittingCells bigRoadGraph b)
      (IndexItem.new r c (BigRoadItem.order cell)) mark.
Proof.
  intros Hcell Hbegin.
  assert (IndexItem.new r c (BigRoadItem.order cell)
            ∈ emittingCells bigRoadGraph b) as Hin.
  { apply elem_of_emittingCells. simpl. eauto. }
  apply list_elem_of_lookup_1 in Hin as [i Hi].
  eexists. exists i. split; [done|].
  rewrite list_lookup_fmap, Hi. done.
Qed.

(** ** The repetition of a mark *)

(** C1, as the specification states it, fails: for the gap 2 and the grid
    [smallRoadGrid], whose [beginIndex] is 4, the mark emitted for the
    row-0 cell of column 3 (order 4) has [repetition = true], because
    columns 0 and 2 both have length 1, while the lengths of columns
    3 - 2 - 1 = 0 and 3 - 2 = 1, which the claim compares, are 1 and 2. *)
Lemma row0_repetition_not_gap_column :
  beginIndex smallRoadGrid SmallRoadGap = Ok (Some 4)
  ∧ cellAt smallRoadGrid 0 3 = Some (BigRoadItem.new 4)
  ∧ generateDownRoadData smallRoadGrid SmallRoadGap
    = Ok [DownRoadItem.new 4 true]
  ∧ emittedFor smallRoadGrid 4 [DownRoadItem.new 4 true]
      (IndexItem.new 0 3 4) (DownRoadItem.new 4 true)
  ∧ lengthOfColumn smallRoadGrid (3 - gapValue SmallRoadGap - 1) = Some 1%nat
  ∧ lengthOfColumn smallRoadGrid (3 - gapValue SmallRoadGap) = Some 2%nat
  ∧ DownRoadItem.repetition (DownRoadItem.new 4 true)
    ≠ bool_decide
        (lengthOfColumn smallRoadGrid (3 - gapValue SmallRoadGap - 1) =
         lengthOfColumn smallRoadGrid (3 - gapValue SmallRoadGap)).
Proof.
  repeat split; try reflexivity.
  - by exists 0%nat.
  - by vm_compute.
Qed.

(** C1 (amended): for every primary grid, every gap g, and every recorded
    cell at row 0 of a column c whose order is at least [beginIndex], the
    builder returns, a mark is emitted for that cell, and every mark emitted
    for it carries the order of the cell and has [repetition] equal to: the
    occupied-cell length of column c - g - 1 equals the occupied-cell length
    of column c - 1. A column reference outside the grid is absent; absent
    equals absent and differs from every length: in column 0 both
    references are absent and [repetition] is true, in the columns 1 to g
    only the first is absent and [repetition] is false, and to the right of
    column g the two lengths are compared. *)
Theorem row0_repetition_previous_column
    (bigRoadGraph : RoadArray BigRoadItem.t) (rowGap : DownRoadGap)
    (b : Z) (c : nat) (cell : BigRoadItem.t) :
  beginIndex bigRoadGraph rowGap = Ok (Some b) →
  cellAt bigRoadGraph 0 c = Some cell →
  b ≤ BigRoadItem.order cell →
  ∃ out,
    generateDownRoadData bigRoadGraph rowGap = Ok out
    ∧ (∃ mark, emittedFor bigRoadGraph b out
                 (IndexItem.new 0 c (BigRoadItem.order cell)) mark)
    ∧ ∀ mark,
        emittedFor bigRoadGraph b out
          (IndexItem.new 0 c (BigRoadItem.order cell)) mark →
        DownRoadItem.order mark = BigRoadItem.order cell
        ∧ DownRoadItem.repetition mark
          = bool_decide
              (lengthOfColumn bigRoadGraph (Z.of_nat c - gapValue rowGap - 1)
               = lengthOfColumn bigRoadGraph (Z.of_nat c - 1))
        ∧ (Z.of_nat c = 0 → DownRoadItem.repetition mark = true)
        ∧ (0 < Z.of_nat c ≤ gapValue rowGap →
           DownRoadItem.repetition mark = false)
        ∧ (gapValue rowGap < Z.of_nat c →
           DownRoadItem.repetition mark
           = bool_decide
               (columnLength bigRoadGraph
                  (Z.to_nat (Z.of_nat c - gapValue rowGap - 1))
                = columnLength bigRoadGraph (Z.to_nat (Z.of_nat c - 1)))).
Proof.
  intros Hbegin Hcell Hle. eexists. split; [by apply generateDownRoadData_begin|].
  split; [by apply emittedFor_recorded|].
  intros mark ->%emittedFor_markOf.
  pose proof (cellAt_column_lt _ _ _ _ Hcell) as Hc.
  pose proof (gapValue_pos rowGap) as Hgap.
  unfold markOf. simpl.
  split; [done|]. split; [done|]. split; [|split].
  - intros Hzero. rewrite !lengthOfColumn_negative by lia.
    by apply bool_decide_eq_true.
  - intros Hleft. rewrite lengthOfColumn_negative by lia.
    rewrite lengthOfColumn_column by lia. by apply bool_decide_eq_false.
  - intros Hright. rewrite !lengthOfColumn_column by lia.
    apply bool_decide_ext. split; [by intros [= ->]|by intros ->].
Qed.

Lemma row0_repetition_previous_column_witness :
  ∃ out,
    generateDownRoadData smallRoadGrid SmallRoadGap = Ok out
    ∧ (∃ mark, emittedFor smallRoadGrid 4 out (IndexItem.new 0 3 4) mark)
    ∧ ∀ mark,
        emittedFor smallRoadGrid 4 out (IndexItem.new 0 3 4) mark →
        DownRoadItem.order mark = 4
        ∧ DownRoadItem.repetition mark
          = bool_decide
              (lengthOfColumn smallRoadGrid (3 - gapValue SmallRoadGap - 1)
               = lengthOfColumn smallRoadGrid (3 - 1))
        ∧ (3 = 0 → DownRoadItem.repetition mark = true)
        ∧ (0 < 3 ≤ gapValue SmallRoadGap →
           DownRoadItem.repetition mark = false)
        ∧ (gapValue SmallRoadGap < 3 →
           DownRoadItem.repetition mark
           = bool_decide
               (columnLength smallRoadGrid
                  (Z.to_nat (3 - gapValue SmallRoadGap - 1))
                = columnLength smallRoadGrid (Z.to_nat (3 - 1)))).
Proof.
  apply (row0_repetition_previous_column smallRoadGrid SmallRoadGap 4 3
           (BigRoadItem.new 4)).
  - reflexivity.
  - reflexivity.
  - simpl. lia.
Defined.

(** C2: for every primary grid, every gap g, and every recorded cell at a
    row r greater than 0 of a column c whose order is at least
    [beginIndex], the builder returns, a mark is emitted for that cell, and
    every mark emitted for it carries the order of the cell and has
    [repetition = false] exactly when the cell at row r - 1 of column c - g
    is present and the cell at row r of column c - g is absent; in every
    other combination [repetition = true]. *)
Theorem lower_row_repetition
    (bigRoadGraph : RoadArray BigRoadItem.t) (rowGap : DownRoadGap)
    (b : Z) (r c : nat) (cell : BigRoadItem.t) :
  beginIndex bigRoadGraph rowGap = Ok (Some b) →
  (0 < r)%nat →
  cellAt bigRoadGraph r c = Some cell →
  b ≤ BigRoadItem.order cell →
  ∃ out,
    generateDownRoadData bigRoadGraph rowGap = Ok out
    ∧ (∃ mark, emittedFor bigRoadGraph b out
                 (IndexItem.new r c (BigRoadItem.order cell)) mark)
    ∧ ∀ mark,
        emittedFor bigRoadGraph b out
          (IndexItem.new r c (BigRoadItem.order cell)) mark →
        DownRoadItem.order mark = BigRoadItem.order cell
        ∧ (DownRoadItem.repetition mark = false ↔
             is_Some (itemAt bigRoadGraph (Z.of_nat r - 1)
                        (Z.of_nat c - gapValue rowGap))
             ∧ itemAt bigRoadGraph (Z.of_nat r)
                 (Z.of_nat c - gapValue rowGap) = None)
        ∧ (DownRoadItem.repetition mark = true ↔
             ¬ (is_Some (itemAt bigRoadGraph (Z.of_nat r - 1)
                           (Z.of_nat c - gapValue rowGap))
                ∧ itemAt bigRoadGraph (Z.of_nat r)
                    (Z.of_nat c - gapValue rowGap) = None)).
Proof.
  intros Hbegin Hr Hcell Hle.
  eexists. split; [by apply generateDownRoadData_begin|].
  split; [by apply emittedFor_recorded|].
  intros mark ->%emittedFor_markOf. unfold markOf. simpl.
  rewrite bool_decide_false by lia. split; [done|].
  destruct (itemAt bigRoadGraph (Z.of_nat r - 1) _) as [lastItem|],
    (itemAt bigRoadGraph (Z.of_nat r) _) as [targetItem|]; simpl;
    (split; split); try done;
    try (by intros [[? ?] ?]); try (by intros _ [[? ?] ?]);
    try (intros H; exfalso; apply H; eauto).
Qed.

Lemma lower_row_repetition_witness :
  ∃ out,
    generateDownRoadData scenarioGrid BigEyeRoadGap = Ok out
    ∧ (∃ mark, emittedFor scenarioGrid 6 out (IndexItem.new 1 2 9) mark)
    ∧ ∀ mark,
        emittedFor scenarioGrid 6 out (IndexItem.new 1 2 9) mark →
        DownRoadItem.order mark = 9
        ∧ (DownRoadItem.repetition mark = false ↔
             is_Some (itemAt scenarioGrid (1 - 1) (2 - 1))
             ∧ itemAt scenarioGrid 1 (2 - 1) = None)
        ∧ (DownRoadItem.repetition mark = true ↔
             ¬ (is_Some (itemAt scenarioGrid (1 - 1) (2 - 1))
                ∧ itemAt scenarioGrid 1 (2 - 1) = None)).
Proof.
  apply (lower_row_repetition scenarioGrid BigEyeRoadGap 6 1 2
           (BigRoadItem.new 9)).
  - reflexivity.
  - lia.
  - reflexivity.
  - simpl. lia.
Defined.

(** ** Where the marks begin *)

Lemma beginIndex_marksFrom (bigRoadGraph : RoadArray BigRoadItem.t) rowGap b :
  beginIndex bigRoadGraph rowGap = Ok (Some b) →
  marksFrom bigRoadGraph rowGap b.
Proof.
  intros Hbegin. split; [done|]. eexists.
  split; [by apply generateDownRoadData_begin|]. split; [|split].
  - intros mark (item & -> & Hitem)%list_elem_of_fmap.
    by apply elem_of_emittingCells in Hitem as [? _].
  - intros r c cell Hcell. split; [by apply emittedFor_recorded|].
    intros (mark & i & Hitem & _).
    apply list_elem_of_lookup_2, elem_of_emittingCells in Hitem as [? _].
    done.
  - apply Forall2_fmap_r, Forall_Forall2_diag, Forall_forall. done.
Qed.

Lemma itemAt_nonneg {T} (array : RoadArray T) (rowIndex columnIndex : Z) :
  0 ≤ rowIndex → 0 ≤ columnIndex →
  itemAt array rowIndex columnIndex
  = cellAt array (Z.to_nat rowIndex) (Z.to_nat columnIndex).
Proof.
  intros. rewrite <- itemAt_of_nat. by rewrite !Z2Nat.id by done.
Qed.

(** On a grid that has rows 0 and 1 and no occupied cell in the column g or
    to its right, the builder returns the empty sequence. *)
Lemma generateDownRoadData_underpopulated
    (bigRoadGraph : RoadArray BigRoadItem.t) (rowGap : DownRoadGap) :
  (2 ≤ length bigRoadGraph)%nat →
  (∀ r c cell, cellAt bigRoadGraph r c = Some cell →
               Z.of_nat c < gapValue rowGap) →
  generateDownRoadData bigRoadGraph rowGap = Ok [].
Proof.
  intros Hrows Hcols. apply generateDownRoadData_no_begin.
  rewrite beginIndex_rows by done.
  pose proof (gapValue_pos rowGap).
  rewrite !itemAt_nonneg by lia.
  destruct (cellAt bigRoadGraph (Z.to_nat 1) _) as [item1|] eqn:H1.
  { apply Hcols in H1. lia. }
  destruct (cellAt bigRoadGraph (Z.to_nat 0) _) as [item2|] eqn:H2.
  { apply Hcols in H2. lia. }
  done.
Qed.

Lemma readItem_Ok {T} (array : RoadArray T) (rowIndex columnIndex : Z) item :
  readItem array rowIndex columnIndex = Ok item →
  0 ≤ rowIndex < Z.of_nat (length array)
  ∧ itemAt array rowIndex columnIndex = item.
Proof.
  intros Hread.
  destruct (decide (0 ≤ rowIndex < Z.of_nat (length array))) as [Hrow|Hrow].
  - rewrite readItem_itemAt in Hread by done. by injection Hread as ->.
  - by rewrite readItem_no_row in Hread.
Qed.

(** The rule of [beginIndex] where the two reads succeed: if the cell read
    at (row 1, column g) is present, the builder begins at the order of
    that cell; otherwise, if the cell read at (row 0, column g + 1) is
    present, it begins at the order of that one; otherwise it returns the
    empty sequence. Beginning at an order b means that b is the
    [beginIndex], that the builder returns, that every mark has an order of
    at least b, and that a recorded cell produces a mark exactly when its
    order is at least b. The reads succeed on the grids that have the rows
    0 and 1 only. *)
Theorem beginIndex_rule
    (bigRoadGraph : RoadArray BigRoadItem.t) (rowGap : DownRoadGap) :
  (∀ item1,
     readItem bigRoadGraph 1 (gapValue rowGap) = Ok (Some item1) →
     marksFrom bigRoadGraph rowGap (BigRoadItem.order item1))
  ∧ (∀ item2,
       readItem bigRoadGraph 1 (gapValue rowGap) = Ok None →
       readItem bigRoadGraph 0 (gapValue rowGap + 1) = Ok (Some item2) →
       marksFrom bigRoadGraph rowGap (BigRoadItem.order item2))
  ∧ (readItem bigRoadGraph 1 (gapValue rowGap) = Ok None →
     readItem bigRoadGraph 0 (gapValue rowGap + 1) = Ok None →
     beginIndex bigRoadGraph rowGap = Ok None
     ∧ generateDownRoadData bigRoadGraph rowGap = Ok []).
Proof.
  assert (∀ item1,
            readItem bigRoadGraph 1 (gapValue rowGap) = Ok item1 →
            beginIndex bigRoadGraph rowGap
            = Ok (match item1 with
                  | Some item1 => Some (BigRoadItem.order item1)
                  | None =>
                      match itemAt bigRoadGraph 0 (gapValue rowGap + 1) with
                      | Some item2 => Some (BigRoadItem.order item2)
                      | None => None
                      end
                  end)) as Hb.
  { intros item1 [Hrows <-]%readItem_Ok. apply beginIndex_rows. lia. }
  split; [|split].
  - intros item1 H1. apply beginIndex_marksFrom. by rewrite (Hb _ H1).
  - intros item2 H1 [_ H2]%readItem_Ok. apply beginIndex_marksFrom.
    by rewrite (Hb _ H1), H2.
  - intros H1 [_ H2]%readItem_Ok.
    assert (beginIndex bigRoadGraph rowGap = Ok None) as Hnone
      by (by rewrite (Hb _ H1), H2).
    split; [done|]. by apply generateDownRoadData_no_begin.
Qed.

Lemma beginIndex_rule_witness :
  marksFrom scenarioGrid BigEyeRoadGap 6
  ∧ marksFrom smallRoadGrid SmallRoadGap 4
  ∧ generateDownRoadData smallRoadGrid CockroachRoadGap = Ok [].
Proof.
  split; [|split].
  - destruct (beginIndex_rule scenarioGrid BigEyeRoadGap) as (H1 & _).
    apply (H1 (BigRoadItem.new 6)). reflexivity.
  - destruct (beginIndex_rule smallRoadGrid SmallRoadGap) as (_ & H2 & _).
    apply (H2 (BigRoadItem.new 4)); reflexivity.
  - destruct (beginIndex_rule smallRoadGrid CockroachRoadGap)
      as (_ & _ & H3).
    apply H3; reflexivity.
Defined.

(** C4 fails on the code: on the empty grid [[]], and on every grid of a
    single row, the builder raises a [TypeError] (its first read,
    [bigRoadGraph[1][rowGap]], indexes a row that does not exist) instead of
    returning the empty sequence. *)
Theorem generateDownRoadData_without_row1 :
  (∀ rowGap, generateDownRoadData [] rowGap = Throw TypeError)
  ∧ (∀ row rowGap, generateDownRoadData [row] rowGap = Throw TypeError).
Proof.
  split; intros; apply generateDownRoadData_throw, beginIndex_no_row1;
    simpl; lia.
Qed.

(** ** Unique orders *)

Lemma NoDup_omap_inj {A B} (f : A → option B) (l : list A) :
  (∀ x y z, f x = Some z → f y = Some z → x = y) →
  NoDup l → NoDup (omap f l).
Proof.
  intros Hinj. induction 1 as [|x l Hx Hl IH]; simpl; [constructor|].
  destruct (f x) as [z|] eqn:Hfx; [|done].
  constructor; [|done].
  intros (y & Hy & Hfy)%list_elem_of_omap.
  by rewrite (Hinj x y z Hfx Hfy) in Hx.
Qed.

Lemma NoDup_recordedCells (bigRoadGraph : RoadArray BigRoadItem.t) :
  NoDup (recordedCells bigRoadGraph).
Proof.
  unfold recordedCells. apply NoDup_bind; [| |apply NoDup_seq].
  - intros c1 c2 item _ _ [H1 _]%elem_of_cellsOfColumn
      [H2 _]%elem_of_cellsOfColumn. congruence.
  - intros c _. unfold cellsOfColumn. apply NoDup_omap_inj; [|apply NoDup_seq].
    intros r1 r2 item H1 H2.
    destruct (cellAt bigRoadGraph r1 c), (cellAt bigRoadGraph r2 c);
      simplify_eq/=. done.
Qed.

Lemma NoDup_fmap_elem_inj {A B} (f : A → B) (l : list A) x y :
  NoDup (f <$> l) → x ∈ l → y ∈ l → f x = f y → x = y.
Proof.
  induction l as [|z l IH]; simpl; intros Hnodup Hx Hy Hxy.
  { by apply elem_of_nil in Hx. }
  apply NoDup_cons in Hnodup as [Hz Hnodup].
  apply elem_of_cons in Hx as [->|Hx], Hy as [->|Hy]; [done| | |by apply IH].
  - exfalso. apply Hz. rewrite Hxy. by apply list_elem_of_fmap_2.
  - exfalso. apply Hz. rewrite <- Hxy. by apply list_elem_of_fmap_2.
Qed.

Lemma uniqueOrders_NoDup (bigRoadGraph : RoadArray BigRoadItem.t) :
  uniqueOrders bigRoadGraph ↔
  NoDup (IndexItem.order <$> recordedCells bigRoadGraph).
Proof.
  split.
  - intros Huniq. apply NoDup_fmap_2_strong; [|apply NoDup_recordedCells].
    intros [r1 c1 o1] [r2 c2 o2]
      (cell1 & Hc1 & Ho1)%elem_of_recordedCells
      (cell2 & Hc2 & Ho2)%elem_of_recordedCells Heq. simpl in *.
    destruct (Huniq _ _ _ _ _ _ Hc1 Hc2) as [-> ->]; [congruence|].
    by rewrite Heq.
  - intros Hnodup r1 c1 r2 c2 cell1 cell2 Hc1 Hc2 Heq.
    assert (IndexItem.new r1 c1 (BigRoadItem.order cell1)
            = IndexItem.new r2 c2 (BigRoadItem.order cell2)) as Hitem.
    { eapply NoDup_fmap_elem_inj; [exact Hnodup| | |done];
        apply elem_of_recordedCells; simpl; eauto. }
    by simplify_eq.
Qed.

Lemma StronglySorted_filter {A} (R : relation A) (P : A → Prop)
    `{∀ x, Decision (P x)} (l : list A) :
  StronglySorted R l → StronglySorted R (filter P l).
Proof.
  induction 1 as [|x l Hsorted IH Hall]; [constructor|].
  rewrite filter_cons. case_decide; [|done].
  constructor; [done|].
  apply Forall_forall. intros y [_ Hy]%list_elem_of_filter.
  by eapply Forall_forall in Hall.
Qed.

Lemma StronglySorted_le_NoDup_lt (l : list Z) :
  StronglySorted Z.le l → NoDup l → StronglySorted Z.lt l.
Proof.
  induction 1 as [|x l Hsorted IH Hall]; [constructor|].
  intros [Hx Hnodup]%NoDup_cons. constructor; [by apply IH|].
  apply Forall_forall. intros y Hy.
  assert (x ≠ y) by (by intros ->).
  eapply Forall_forall in Hall; [|exact Hy]. lia.
Qed.

Lemma order_markOf (bigRoadGraph : RoadArray BigRoadItem.t) rowGap
    (items : list IndexItem.t) :
  DownRoadItem.order <$> (markOf bigRoadGraph rowGap <$> items)
  = IndexItem.order <$> items.
Proof. rewrite <- list_fmap_compose. by apply list_fmap_ext. Qed.

Lemma length_emittingCells (bigRoadGraph : RoadArray BigRoadItem.t) b :
  length (emittingCells bigRoadGraph b)
  = length (filter (λ item, b ≤ IndexItem.order item)
              (recordedCells bigRoadGraph)).
Proof.
  unfold emittingCells. apply Permutation_length, filter_Permutation,
    sortByOrder_Permutation.
Qed.

Lemma NoDup_order_emittingCells (bigRoadGraph : RoadArray BigRoadItem.t) b :
  uniqueOrders bigRoadGraph →
  NoDup (IndexItem.order <$> emittingCells bigRoadGraph b).
Proof.
  intros Huniq%uniqueOrders_NoDup. unfold emittingCells.
  apply NoDup_fmap_2_strong.
  - intros x y [_ Hx]%list_elem_of_filter [_ Hy]%list_elem_of_filter.
    apply (proj1 (elem_of_sortByOrder _ _)) in Hx, Hy.
    by apply (NoDup_fmap_elem_inj IndexItem.order
                (recordedCells bigRoadGraph)).
  - apply NoDup_filter. rewrite sortByOrder_Permutation.
    apply NoDup_recordedCells.
Qed.

(** C7: for every primary grid whose cells carry pairwise distinct orders
    and every gap, the output of the builder is strictly ascending by order
    and has no duplicate order, the order of every emitted mark is the order
    of exactly one cell of the grid, and the output is no longer than the
    number of recorded cells whose order is at least [beginIndex]. *)
Theorem marks_strictly_ascending
    (bigRoadGraph : RoadArray BigRoadItem.t) (rowGap : DownRoadGap)
    (out : list DownRoadItem.t) :
  uniqueOrders bigRoadGraph →
  generateDownRoadData bigRoadGraph rowGap = Ok out →
  StronglySorted Z.lt (DownRoadItem.order <$> out)
  ∧ NoDup (DownRoadItem.order <$> out)
  ∧ (∀ mark, mark ∈ out →
       exists ! position : nat * nat,
         ∃ cell, cellAt bigRoadGraph position.1 position.2 = Some cell
                 ∧ BigRoadItem.order cell = DownRoadItem.order mark)
  ∧ (∀ b, beginIndex bigRoadGraph rowGap = Ok (Some b) →
          (length out ≤ length (filter (λ item, (b ≤ IndexItem.order item)%Z)
                                  (recordedCells bigRoadGraph)))%nat).
Proof.
  intros Huniq Hout.
  destruct (beginIndex bigRoadGraph rowGap) as [[b|]|e] eqn:Hbegin.
  - rewrite (generateDownRoadData_begin _ _ _ Hbegin) in Hout.
    injection Hout as <-. rewrite order_markOf.
    pose proof (NoDup_order_emittingCells bigRoadGraph b Huniq) as Hnodup.
    split; [|split; [done|split]].
    + apply StronglySorted_le_NoDup_lt; [|done].
      apply (StronglySorted_fmap _ orderLe); [done|].
      apply StronglySorted_filter, sortByOrder_sorted.
    + intros mark (item & -> & Hitem)%list_elem_of_fmap.
      apply elem_of_emittingCells in Hitem as (_ & cell & Hcell & Horder).
      exists (IndexItem.rowIndex item, IndexItem.columnIndex item). split.
      * exists cell. simpl. by rewrite Horder.
      * intros [r c] (cell' & Hcell' & Horder'). simpl in *.
        destruct (Huniq _ _ _ _ _ _ Hcell Hcell') as [-> ->]; [|done].
        congruence.
    + intros b' [= <-]. by rewrite length_fmap, length_emittingCells.
  - rewrite (generateDownRoadData_no_begin _ _ Hbegin) in Hout.
    injection Hout as <-. simpl.
    split; [constructor|split; [constructor|split]].
    + by intros mark ?%elem_of_nil.
    + intros b [=].
  - by rewrite (generateDownRoadData_throw _ _ _ Hbegin) in Hout.
Qed.

Lemma marks_strictly_ascending_witness :
  let out := [DownRoadItem.new 6 true; DownRoadItem.new 7 true;
              DownRoadItem.new 8 false; DownRoadItem.new 9 true] in
  StronglySorted Z.lt (DownRoadItem.order <$> out)
  ∧ NoDup (DownRoadItem.order <$> out)
  ∧ (∀ mark, mark ∈ out →
       exists ! position : nat * nat,
         ∃ cell, cellAt scenarioGrid position.1 position.2 = Some cell
                 ∧ BigRoadItem.order cell = DownRoadItem.order mark)
  ∧ (∀ b, beginIndex scenarioGrid BigEyeRoadGap = Ok (Some b) →
          (length out ≤ length (filter (λ item, (b ≤ IndexItem.order item)%Z)
                                  (recordedCells scenarioGrid)))%nat).
Proof.
  apply (marks_strictly_ascending scenarioGrid BigEyeRoadGap).
  - apply uniqueOrders_NoDup. apply (bool_decide_unpack _).
    vm_compute. reflexivity.
  - reflexivity.
Defined.

(** ** The grid abstraction *)

Lemma this_Qc_of_Z (z : Z) : this (Qc_of_Z z) = inject_Z z.
Proof. reflexivity. Qed.

Lemma Number_isInteger_spec (n : number) :
  Number_isInteger n = true ↔ ∃ z : Z, n = numberOfZ z.
Proof.
  split.
  - destruct n as [q| | |]; simpl; try done.
    intros Hden%bool_decide_eq_true. exists (Qnum (this q)).
    unfold numberOfZ. f_equal. apply Qc_is_canon.
    rewrite this_Qc_of_Z. destruct q as [[num den] Hcanon]. simpl in *.
    by subst den.
  - intros [z ->]. reflexivity.
Qed.

Lemma number_le_0_numberOfZ (z : Z) :
  number_le_0 (numberOfZ z) = true ↔ z ≤ 0.
Proof.
  simpl. rewrite bool_decide_eq_true, (Z2Qc_inj_le z 0).
  by rewrite Z2Qc_inj_0.
Qed.

Lemma positiveInteger_spec (n : number) :
  positiveInteger n ↔ Number_isInteger n = true ∧ number_le_0 n = false.
Proof.
  split.
  - intros (z & Hz & ->). split.
    + apply Number_isInteger_spec. eauto.
    + apply not_true_is_false. rewrite number_le_0_numberOfZ. lia.
  - intros [[z ->]%Number_isInteger_spec Hle]. exists z. split; [|done].
    apply not_true_iff_false in Hle. rewrite number_le_0_numberOfZ in Hle.
    lia.
Qed.

Lemma toIndex_numberOfZ (z : Z) : toIndex (numberOfZ z) = Some z.
Proof. reflexivity. Qed.

Lemma toIndex_Some (n : number) (z : Z) :
  toIndex n = Some z → n = numberOfZ z.
Proof.
  destruct n as [q| | |]; try done. unfold toIndex.
  destruct (Number_isInteger (Finite q)) eqn:Hint; [|done].
  apply Number_isInteger_spec in Hint as [z' Hz']. rewrite Hz'.
  injection Hz' as ->. by intros [= <-].
Qed.

Lemma arrayAt_is_Some {A} (arr : list A) (n : number) :
  is_Some (arrayAt arr n) ↔ rowInBounds n (length arr).
Proof.
  unfold arrayAt, rowInBounds. split.
  - intros [x Hx]. destruct (toIndex n) as [z|] eqn:Hz; [|done]. simpl in Hx.
    apply toIndex_Some in Hz as ->.
    assert (is_Some (arrayGet arr z)) as Hsome by eauto.
    apply arrayGet_is_Some in Hsome. exists (Z.to_nat z).
    split; [lia|]. by rewrite Z2Nat.id by lia.
  - intros (i & Hi & ->). rewrite toIndex_numberOfZ. simpl.
    apply arrayGet_is_Some. lia.
Qed.

Lemma Road_new_guard (row column : number) :
  negb (Number_isInteger row) || negb (Number_isInteger column)
  || number_le_0 row || number_le_0 column = false
  ↔ positiveInteger row ∧ positiveInteger column.
Proof.
  rewrite !positiveInteger_spec.
  destruct (Number_isInteger row), (Number_isInteger column),
    (number_le_0 row), (number_le_0 column); simpl; intuition congruence.
Qed.

(** C8: for every row count, column count and round history, constructing a
    [Road] raises the invalid-dimension error exactly when the row count or
    the column count is not a positive integer; it raises no other error;
    and for positive-integer dimensions the construction succeeds and
    [rowCount] and [columnCount] return exactly the two counts. *)
Theorem Road_new_dimensions {T} (array : RoadArray T)
    (row column : number) (results : positive) :
  (Road.new array row column results = Throw Road.invalidDimension ↔
     ¬ (positiveInteger row ∧ positiveInteger column))
  ∧ (∀ e, Road.new array row column results = Throw e →
          e = Road.invalidDimension)
  ∧ (positiveInteger row → positiveInteger column →
     ∃ road, Road.new array row column results = Ok road
             ∧ Road.rowCount road = row
             ∧ Road.columnCount road = column).
Proof.
  unfold Road.new.
  destruct (negb (Number_isInteger row) || negb (Number_isInteger column)
            || number_le_0 row || number_le_0 column) eqn:Hguard.
  - assert (¬ (positiveInteger row ∧ positiveInteger column)) as Hnot.
    { rewrite <- Road_new_guard. by rewrite Hguard. }
    split; [done|]. split; [by intros e [= <-]|].
    intros Hrow Hcolumn. by destruct Hnot.
  - apply Road_new_guard in Hguard.
    split; [split; [done|by intros Hnot]|]. split; [done|].
    intros _ _. by eexists.
Qed.

Lemma Road_new_dimensions_witness :
  ∃ road : Road.t BigRoadItem.t,
    Road.new scenarioGrid (numberOfZ 4) (numberOfZ 3) 1%positive = Ok road
    ∧ Road.rowCount road = numberOfZ 4
    ∧ Road.columnCount road = numberOfZ 3.
Proof.
  apply (Road_new_dimensions scenarioGrid (numberOfZ 4) (numberOfZ 3)
           1%positive).
  - exists 4. split; [lia|reflexivity].
  - exists 3. split; [lia|reflexivity].
Defined.

(** C10: for every [Road] and every row index outside the bounds of its
    backing array, [getItem] does not return the absent value: it fails
    with a [TypeError], whatever the column index; for a row index within
    the bounds, and any column index, [getItem] returns: the cell at that
    position, or absent. *)
Theorem getItem_row_bounds {T} (road : Road.t T)
    (rowIndex columnIndex : number) :
  (¬ rowInBounds rowIndex (length (Road.array road)) →
   Road.getItem road rowIndex columnIndex = Throw TypeError)
  ∧ (rowInBounds rowIndex (length (Road.array road)) →
     ∃ row, arrayAt (Road.array road) rowIndex = Some row
            ∧ Road.getItem road rowIndex columnIndex
              = Ok (mjoin (arrayAt row columnIndex))).
Proof.
  unfold Road.getItem. split.
  - intros Hout.
    destruct (arrayAt (Road.array road) rowIndex) as [row|] eqn:Hrow; [|done].
    exfalso. apply Hout, arrayAt_is_Some. eauto.
  - intros [row Hrow]%arrayAt_is_Some. exists row. by rewrite Hrow.
Qed.

Lemma getItem_row_bounds_witness :
  let road := Road.mk (numberOfZ 4) (numberOfZ 3) 1%positive scenarioGrid in
  Road.getItem road (numberOfZ 4) (numberOfZ 0) = Throw TypeError
  ∧ ∃ row, arrayAt scenarioGrid (numberOfZ 3) = Some row
           ∧ Road.getItem road (numberOfZ 3) (numberOfZ 7)
             = Ok (mjoin (arrayAt row (numberOfZ 7))).
Proof.
  split.
  - apply (getItem_row_bounds
             (Road.mk (numberOfZ 4) (numberOfZ 3) 1%positive scenarioGrid)
             (numberOfZ 4) (numberOfZ 0)).
    intros (i & Hi & Heq). simpl in Hi.
    apply (f_equal toIndex) in Heq. rewrite !toIndex_numberOfZ in Heq.
    injection Heq as Heq. lia.
  - apply (getItem_row_bounds
             (Road.mk (numberOfZ 4) (numberOfZ 3) 1%positive scenarioGrid)
             (numberOfZ 3) (numberOfZ 7)).
    exists 3%nat. split; [simpl; lia|reflexivity].
Defined.

(** ** Running the prediction *)

Lemma RoundResult_from_eq (v : RoundResult.t) : RoundResult.from v = v.
Proof. by destruct v. Qed.

Lemma arrayGet_last {A} (l : list A) :
  arrayGet l (Z.of_nat (length l) - 1) = last l.
Proof.
  destruct l as [|x l] using rev_ind; [done|].
  rewrite last_snoc, length_app. simpl.
  replace (Z.of_nat (length l + 1) - 1) with (Z.of_nat (length l)) by lia.
  rewrite arrayGet_of_nat. by rewrite lookup_app_r, Nat.sub_diag by lia.
Qed.

Lemma holds_weaken σ σ' refs vs :
  objects σ ⊆ objects σ' → holds σ refs vs → holds σ' refs vs.
Proof.
  intros Hsub Hholds. eapply Forall2_impl; [exact Hholds|].
  intros l v Hl. exact (lookup_weaken _ _ _ _ Hl Hsub).
Qed.

Lemma readObjects_holds σ refs vs :
  holds σ refs vs → mapHeap readObject refs σ = (Ok vs, σ).
Proof.
  induction 1 as [|l v refs vs Hl _ IH]; [done|].
  simpl. unfold mbind, Heap_bind, readObject at 1. rewrite Hl.
  unfold mbind, Heap_bind. by rewrite IH.
Qed.

Lemma copies_of_rounds σ refs vs :
  holds σ refs vs →
  ∃ copies σ',
    mapHeap RoundResult_from refs σ = (Ok copies, σ')
    ∧ arrays σ' = arrays σ
    ∧ objects σ ⊆ objects σ'
    ∧ Forall (λ l', objects σ !! l' = None) copies
    ∧ holds σ' copies vs.
Proof.
  intros Hholds. revert σ vs Hholds.
  induction refs as [|l refs IH]; intros σ vs Hholds.
  - apply Forall2_nil_inv_l in Hholds as ->.
    exists [], σ. by repeat split; try constructor.
  - apply Forall2_cons_inv_l in Hholds as (v & vs' & Hl & Hrest & ->).
    set (l' := fresh (dom (objects σ))).
    set (σ1 := mkStore (<[l' := RoundResult.from v]> (objects σ)) (arrays σ)).
    assert (objects σ !! l' = None) as Hfresh.
    { apply not_elem_of_dom. apply is_fresh. }
    assert (objects σ ⊆ objects σ1) as Hsub1.
    { simpl. by apply insert_subseteq. }
    destruct (IH σ1 vs') as (copies & σ' & Hrun & Harrays & Hsub & Hnew & Hcopies).
    { by eapply holds_weaken. }
    exists (l' :: copies), σ'. split; [|split; [|split; [|split]]].
    + simpl. unfold mbind, Heap_bind, RoundResult_from at 1.
      unfold mbind, Heap_bind, readObject. rewrite Hl.
      unfold newObject. fold l'. fold σ1. by rewrite Hrun.
    + by rewrite Harrays.
    + by etrans.
    + constructor; [done|]. eapply Forall_impl; [exact Hnew|].
      intros l2 Hl2. exact (lookup_weaken_None _ _ _ Hl2 Hsub1).
    + constructor; [|done]. eapply lookup_weaken; [|exact Hsub].
      simpl. by rewrite lookup_insert_eq, RoundResult_from_eq.
Qed.

Lemma Heap_bind_run {A B} (m : Heap A) (f : A → Heap B) σ a σ' :
  m σ = (Ok a, σ') → (m ≫= f) σ = f a σ'.
Proof. intros Hm. unfold mbind, Heap_bind. by rewrite Hm. Qed.

Lemma getPrediction_run
    (SharedBigRoad_rawArray :
       number → number → list RoundResult.t → RoadArray BigRoadItem.t)
    (this : DownRoad.t) (fakeNextRound : positive)
    (downRoadGap : DownRoadGap) (σ : Store)
    (history : list positive) (vs : list RoundResult.t)
    (fv : RoundResult.t) :
  arrays σ !! DownRoad.roundResults this = Some history →
  holds σ history vs →
  objects σ !! fakeNextRound = Some fv →
  ∃ copies σ',
    getPrediction SharedBigRoad_rawArray this fakeNextRound downRoadGap σ
    = (lastRepetition <$>
         generateDownRoadData (simulatedGrid SharedBigRoad_rawArray this vs fv) downRoadGap, σ')
    ∧ arrays σ' = <[fresh (dom (arrays σ)) := copies ++ [fakeNextRound]]>
                    (arrays σ)
    ∧ objects σ ⊆ objects σ'
    ∧ Forall (λ l', objects σ !! l' = None) copies
    ∧ holds σ' copies vs.
Proof.
  intros Hhistory Hholds Hfake.
  destruct (copies_of_rounds σ history vs Hholds)
    as (copies & σ1 & Hrun & Harrays & Hsub & Hnew & Hcopies).
  set (a := fresh (dom (arrays σ))).
  set (σ3 := mkStore (objects σ1)
               (<[a := copies ++ [fakeNextRound]]> (arrays σ))).
  exists copies, σ3. split; [|by repeat split].
  unfold getPrediction.
  erewrite Heap_bind_run; cycle 1.
  { unfold Array_map. erewrite Heap_bind_run; cycle 1.
    { unfold readArray. by rewrite Hhistory. }
    erewrite Heap_bind_run; [|exact Hrun].
    unfold newArray. rewrite Harrays. fold a. reflexivity. }
  erewrite Heap_bind_run; cycle 1.
  { unfold Array_push. simpl. rewrite lookup_insert_eq.
    rewrite insert_insert_eq. fold σ3. reflexivity. }
  erewrite Heap_bind_run; cycle 1.
  { unfold SharedBigRoad_new. erewrite Heap_bind_run; cycle 1.
    { unfold readArray. simpl. by rewrite lookup_insert_eq. }
    erewrite Heap_bind_run; cycle 1.
    { apply (readObjects_holds σ3 _ (vs ++ [fv])).
      apply Forall2_app; [done|]. constructor; [|constructor].
      exact (lookup_weaken _ _ _ _ Hfake Hsub). }
    reflexivity. }
  fold (simulatedGrid SharedBigRoad_rawArray this vs fv).
  unfold mbind at 1, Heap_bind, liftResult.
  destruct (generateDownRoadData (simulatedGrid SharedBigRoad_rawArray this vs fv) downRoadGap)
    as [marks|e]; simpl; [|done].
  unfold mret, Heap_ret. rewrite arrayGet_last. unfold lastRepetition.
  by destruct (last marks).
Qed.

(** What the prediction returns: the [repetition] of the last mark of the
    derived road built over the primary grid of the history extended with
    the hypothetical round, and "unknown" ([None], for [undefined]) when
    that sequence is empty. The prediction throws exactly when the builder
    does, and so does not throw when the primary grid that [SharedBigRoad]
    builds has the rows 0 and 1 the builder reads. *)
Theorem prediction_is_last_mark
    (SharedBigRoad_rawArray :
       number → number → list RoundResult.t → RoadArray BigRoadItem.t)
    (this : DownRoad.t) (fakeNextRound : positive)
    (downRoadGap : DownRoadGap) (σ : Store)
    (history : list positive) (vs : list RoundResult.t) (fv : RoundResult.t) :
  arrays σ !! DownRoad.roundResults this = Some history →
  holds σ history vs →
  objects σ !! fakeNextRound = Some fv →
  let prediction :=
    (getPrediction SharedBigRoad_rawArray this fakeNextRound downRoadGap σ).1 in
  let grid := simulatedGrid SharedBigRoad_rawArray this vs fv in
  (∀ marks,
     generateDownRoadData grid downRoadGap = Ok marks →
     prediction = Ok (lastRepetition marks)
     ∧ (marks = [] → prediction = Ok None))
  ∧ (∀ e, prediction = Throw e ↔
          generateDownRoadData grid downRoadGap = Throw e)
  ∧ ((2 ≤ length grid)%nat → ∃ color, prediction = Ok color).
Proof.
  intros Hhistory Hholds Hfake prediction grid.
  destruct (getPrediction_run SharedBigRoad_rawArray this fakeNextRound
              downRoadGap σ history vs fv Hhistory Hholds Hfake)
    as (copies & σ' & Hrun & _).
  subst prediction. rewrite Hrun. simpl. fold grid.
  split; [|split].
  - intros marks ->. split; [done|]. by intros ->.
  - intros e. destruct (generateDownRoadData grid downRoadGap); simpl;
      [split; intros [=]|split; by intros [= ->]].
  - intros Hrows.
    destruct (beginIndex grid downRoadGap) as [[b|]|e] eqn:Hbegin.
    + rewrite (generateDownRoadData_begin _ _ _ Hbegin). by eexists.
    + rewrite (generateDownRoadData_no_begin _ _ Hbegin). by eexists.
    + by rewrite beginIndex_rows in Hbegin.
Qed.

Lemma prediction_is_last_mark_witness :
  let prediction :=
    (getPrediction oneRoundPerColumn sixByTen 4%positive BigEyeRoadGap
       threeRounds).1 in
  let grid :=
    simulatedGrid oneRoundPerColumn sixByTen
      [RoundResult.new 0 8 BankerWin NoPair;
       RoundResult.new 1 7 PlayerWin NoPair;
       RoundResult.new 2 9 BankerWin BankerPair]
      (RoundResult.new 3 0 PlayerWin NoPair) in
  (∀ marks,
     generateDownRoadData grid BigEyeRoadGap = Ok marks →
     prediction = Ok (lastRepetition marks)
     ∧ (marks = [] → prediction = Ok None))
  ∧ (∀ e, prediction = Throw e ↔
          generateDownRoadData grid BigEyeRoadGap = Throw e)
  ∧ ((2 ≤ length grid)%nat → ∃ color, prediction = Ok color).
Proof.
  apply (prediction_is_last_mark oneRoundPerColumn sixByTen 4%positive
           BigEyeRoadGap threeRounds [1%positive; 2%positive; 3%positive]).
  - reflexivity.
  - repeat constructor.
  - reflexivity.
Defined.



(** ** Appending a round to the history *)

Lemma generateDownRoadData_rows (bigRoadGraph : RoadArray BigRoadItem.t)
    rowGap :
  (2 ≤ length bigRoadGraph)%nat ↔
  ∃ out, generateDownRoadData bigRoadGraph rowGap = Ok out.
Proof.
  split.
  - intros Hrows.
    destruct (beginIndex bigRoadGraph rowGap) as [[b|]|e] eqn:Hbegin.
    + rewrite (generateDownRoadData_begin _ _ _ Hbegin). by eexists.
    + rewrite (generateDownRoadData_no_begin _ _ Hbegin). by eexists.
    + by rewrite beginIndex_rows in Hbegin.
  - intros [out Hout].
    destruct (decide (2 ≤ length bigRoadGraph)%nat) as [|Hrows]; [done|].
    rewrite (generateDownRoadData_throw _ _ TypeError) in Hout; [done|].
    apply beginIndex_no_row1. lia.
Qed.

Lemma grownBy_emittingCells (before after : RoadArray BigRoadItem.t) b :
  (∀ r c cell, cellAt before r c = Some cell → cellAt after r c = Some cell) →
  (length (emittingCells before b) ≤ length (emittingCells after b))%nat.
Proof.
  intros Hstay. rewrite !length_emittingCells.
  apply submseteq_length, NoDup_submseteq.
  - apply NoDup_filter, NoDup_recordedCells.
  - intros item [Hb (cell & Hcell & Horder)%elem_of_recordedCells]
      %list_elem_of_filter.
    apply list_elem_of_filter. split; [done|].
    apply elem_of_recordedCells. eauto.
Qed.

Lemma beginIndex_cells (bigRoadGraph : RoadArray BigRoadItem.t) rowGap :
  (2 ≤ length bigRoadGraph)%nat →
  beginIndex bigRoadGraph rowGap
  = Ok (match cellAt bigRoadGraph 1 (Z.to_nat (gapValue rowGap)) with
        | Some item1 => Some (BigRoadItem.order item1)
        | None =>
            match cellAt bigRoadGraph 0 (S (Z.to_nat (gapValue rowGap))) with
            | Some item2 => Some (BigRoadItem.order item2)
            | None => None
            end
        end).
Proof.
  intros Hrows. rewrite beginIndex_rows by done.
  pose proof (gapValue_pos rowGap) as Hgap.
  rewrite (itemAt_nonneg bigRoadGraph 1), (itemAt_nonneg bigRoadGraph 0)
    by lia.
  replace (Z.to_nat (gapValue rowGap + 1))
    with (S (Z.to_nat (gapValue rowGap))) by lia.
  reflexivity.
Qed.

Lemma grownBy_beginIndex (before after : RoadArray BigRoadItem.t) rowGap b :
  grownBy before after →
  beginIndex before rowGap = Ok (Some b) →
  beginIndex after rowGap = Ok (Some b).
Proof.
  intros (Hrows & Hstay & Hclosed) Hbegin.
  assert (2 ≤ length before)%nat as Hbefore.
  { destruct (decide (2 ≤ length before)%nat) as [|Hlt]; [done|].
    rewrite beginIndex_no_row1 in Hbegin by lia. done. }
  rewrite beginIndex_cells in Hbegin by done.
  rewrite beginIndex_cells by lia.
  set (g := Z.to_nat (gapValue rowGap)) in *.
  destruct (cellAt before 1 g) as [item1|] eqn:H1.
  { by rewrite (Hstay _ _ _ H1). }
  destruct (cellAt before 0 (S g)) as [item2|] eqn:H2; [|done].
  rewrite (Hclosed g) by (by rewrite H2).
  by rewrite H1, (Hstay _ _ _ H2).
Qed.

(** The builder on a grid and on the grid grown by one round. *)
Lemma grownBy_marks (before after : RoadArray BigRoadItem.t) rowGap out :
  grownBy before after →
  generateDownRoadData before rowGap = Ok out →
  ∃ out', generateDownRoadData after rowGap = Ok out'
          ∧ (length out ≤ length out')%nat.
Proof.
  intros Hgrown Hout.
  destruct (beginIndex before rowGap) as [[b|]|e] eqn:Hbegin.
  - rewrite (generateDownRoadData_begin _ _ _ Hbegin) in Hout.
    injection Hout as <-.
    rewrite (generateDownRoadData_begin after rowGap b)
      by (by eapply grownBy_beginIndex).
    eexists. split; [done|]. rewrite !length_fmap.
    apply grownBy_emittingCells. by destruct Hgrown as (_ & Hstay & _).
  - rewrite (generateDownRoadData_no_begin _ _ Hbegin) in Hout.
    injection Hout as <-.
    destruct (proj1 (generateDownRoadData_rows after rowGap)) as [out' Hout'].
    { destruct Hgrown as (-> & _).
      apply (generateDownRoadData_rows before rowGap).
      rewrite (generateDownRoadData_no_begin _ _ Hbegin). by eexists. }
    exists out'. split; [done|]. simpl. lia.
  - by rewrite (generateDownRoadData_throw _ _ _ Hbegin) in Hout.
Qed.

(** C9: for every gap, the length of the output of the builder over the
    primary grid of a round history does not decrease when a round is
    appended: whenever the builder returns a sequence over the grid of a
    history h, it returns over the grid of h ++ [r] a sequence at least as
    long. The primary grid is that of any builder which grows it as
    [grownBy] says. *)
Theorem marks_never_retracted
    (SharedBigRoad_rawArray :
       number → number → list RoundResult.t → RoadArray BigRoadItem.t)
    (row column : number) (rowGap : DownRoadGap)
    (h : list RoundResult.t) (r : RoundResult.t) (out : list DownRoadItem.t) :
  (∀ rounds round,
     grownBy (SharedBigRoad_rawArray row column rounds)
             (SharedBigRoad_rawArray row column (rounds ++ [round]))) →
  generateDownRoadData (SharedBigRoad_rawArray row column h) rowGap = Ok out →
  ∃ out',
    generateDownRoadData (SharedBigRoad_rawArray row column (h ++ [r])) rowGap
    = Ok out'
    ∧ (length out ≤ length out')%nat.
Proof. intros Hgrown Hout. eapply grownBy_marks; [apply Hgrown|exact Hout]. Qed.

Lemma oneRoundPerColumn_cellAt row column rounds r c :
  cellAt (oneRoundPerColumn row column rounds) r c
  = match r with
    | O => (λ round, BigRoadItem.new (RoundResult.order round)) <$> rounds !! c
    | S _ => None
    end.
Proof.
  unfold cellAt, oneRoundPerColumn. destruct r as [|[|r]]; simpl.
  - rewrite list_lookup_fmap. by destruct (rounds !! c).
  - done.
  - done.
Qed.

Lemma oneRoundPerColumn_grownBy row column rounds round :
  grownBy (oneRoundPerColumn row column rounds)
          (oneRoundPerColumn row column (rounds ++ [round])).
Proof.
  split; [done|]. split.
  - intros r c cell. rewrite !oneRoundPerColumn_cellAt.
    destruct r; [|done].
    destruct (rounds !! c) as [v|] eqn:Hc; [|done].
    by rewrite (lookup_app_l_Some _ _ _ _ Hc).
  - intros c [cell Hcell] r. rewrite !oneRoundPerColumn_cellAt in *.
    destruct r; [|done].
    destruct (rounds !! S c) as [v|] eqn:Hc; [|done].
    apply lookup_lt_Some in Hc. by rewrite lookup_app_l by lia.
Qed.

Lemma marks_never_retracted_witness :
  ∃ out',
    generateDownRoadData
      (oneRoundPerColumn (numberOfZ 6) (numberOfZ 10)
         ([RoundResult.new 0 8 BankerWin NoPair;
           RoundResult.new 1 7 PlayerWin NoPair;
           RoundResult.new 2 9 BankerWin BankerPair]
          ++ [RoundResult.new 3 0 PlayerWin NoPair]))
      BigEyeRoadGap
    = Ok out'
    ∧ (length [DownRoadItem.new 2 true] ≤ length out')%nat.
Proof.
  apply (marks_never_retracted oneRoundPerColumn (numberOfZ 6) (numberOfZ 10)
           BigEyeRoadGap).
  - apply oneRoundPerColumn_grownBy.
  - reflexivity.
Defined.

(** ** The scenario of the specification *)

(** Column lengths 4, 3, 2, row-0 orders 1, 5, 8, gap 1: the builder begins
    at the order 6 of the cell at (row 1, column 1); the marks of the orders
    6, 7 and 9 continue a column beside two occupied cells, the mark of the
    order 8 opens column 2 after columns of the lengths 4 and 3. *)
Example scenario_marks :
  beginIndex scenarioGrid BigEyeRoadGap = Ok (Some 6)
  ∧ generateDownRoadData scenarioGrid BigEyeRoadGap
    = Ok [DownRoadItem.new 6 true; DownRoadItem.new 7 true;
          DownRoadItem.new 8 false; DownRoadItem.new 9 true].
Proof. split; reflexivity. Qed.

(** * Further properties of the code *)

(** ** When the builder fails, and when it returns nothing *)

Lemma beginIndex_cell (bigRoadGraph : RoadArray BigRoadItem.t) rowGap b :
  beginIndex bigRoadGraph rowGap = Ok (Some b) →
  ∃ r c cell, cellAt bigRoadGraph r c = Some cell
              ∧ BigRoadItem.order cell = b.
Proof.
  intros Hbegin.
  assert (2 ≤ length bigRoadGraph)%nat as Hrows.
  { destruct (decide (2 ≤ length bigRoadGraph)%nat) as [|Hlt]; [done|].
    by rewrite beginIndex_no_row1 in Hbegin by lia. }
  rewrite beginIndex_cells in Hbegin by done.
  destruct (cellAt bigRoadGraph 1 _) as [item1|] eqn:H1.
  { injection Hbegin as <-. eauto. }
  destruct (cellAt bigRoadGraph 0 _) as [item2|] eqn:H2; [|done].
  injection Hbegin as <-. eauto.
Qed.

Lemma emittingCells_begin_cell (bigRoadGraph : RoadArray BigRoadItem.t)
    rowGap b :
  beginIndex bigRoadGraph rowGap = Ok (Some b) →
  ∃ item, item ∈ emittingCells bigRoadGraph b ∧ IndexItem.order item = b.
Proof.
  intros (r & c & cell & Hcell & Horder)%beginIndex_cell.
  exists (IndexItem.new r c (BigRoadItem.order cell)). split; [|done].
  apply elem_of_emittingCells. simpl. split; [lia|eauto].
Qed.

Lemma generateDownRoadData_nil_iff (bigRoadGraph : RoadArray BigRoadItem.t)
    rowGap out :
  generateDownRoadData bigRoadGraph rowGap = Ok out →
  out = [] ↔
  itemAt bigRoadGraph 1 (gapValue rowGap) = None
  ∧ itemAt bigRoadGraph 0 (gapValue rowGap + 1) = None.
Proof.
  intros Hout.
  assert (2 ≤ length bigRoadGraph)%nat as Hrows.
  { apply (generateDownRoadData_rows bigRoadGraph rowGap). eauto. }
  pose proof (beginIndex_rows bigRoadGraph rowGap Hrows) as Hbegin.
  destruct (beginIndex bigRoadGraph rowGap) as [[b|]|e] eqn:Hb; [| |done].
  - rewrite (generateDownRoadData_begin _ _ _ Hb) in Hout.
    injection Hout as <-. split.
    + intros Hnil.
      destruct (emittingCells_begin_cell _ _ _ Hb) as (item & Hitem & _).
      apply fmap_nil_inv in Hnil. rewrite Hnil in Hitem.
      by apply elem_of_nil in Hitem.
    + intros [H1 H2]. by rewrite H1, H2 in Hbegin.
  - rewrite (generateDownRoadData_no_begin _ _ Hb) in Hout.
    injection Hout as <-. split; [|done]. intros _.
    destruct (itemAt bigRoadGraph 1 _); [done|].
    by destruct (itemAt bigRoadGraph 0 _).
Qed.

(** X1: the builder raises an error exactly on the grids that have fewer
    than two rows, and the error is a [TypeError]: on every grid with the
    rows 0 and 1 it returns a sequence, whatever the rows hold (short rows,
    unfilled positions, no cell at all), since no other read leaves the
    rows of the grid. *)
Theorem generateDownRoadData_throws_iff
    (bigRoadGraph : RoadArray BigRoadItem.t) (rowGap : DownRoadGap) (e : Exn) :
  generateDownRoadData bigRoadGraph rowGap = Throw e ↔
  (length bigRoadGraph < 2)%nat ∧ e = TypeError.
Proof.
  split.
  - intros Hthrow.
    destruct (decide (2 ≤ length bigRoadGraph)%nat) as [Hrows|Hrows].
    + apply (generateDownRoadData_rows bigRoadGraph rowGap) in Hrows
        as [out Hout]. congruence.
    + split; [lia|].
      rewrite (generateDownRoadData_throw _ _ TypeError) in Hthrow
        by (apply beginIndex_no_row1; lia).
      congruence.
  - intros [Hrows ->].
    by apply generateDownRoadData_throw, beginIndex_no_row1.
Qed.

(** X2: whenever the builder returns, its output is empty exactly when
    both the cell at (row 1, column g) and the cell at (row 0, column
    g + 1) are absent: once one of the two is present, at least one mark is
    emitted. *)
Theorem generateDownRoadData_empty_iff
    (bigRoadGraph : RoadArray BigRoadItem.t) (rowGap : DownRoadGap)
    (out : list DownRoadItem.t) :
  generateDownRoadData bigRoadGraph rowGap = Ok out →
  out = [] ↔
  itemAt bigRoadGraph 1 (gapValue rowGap) = None
  ∧ itemAt bigRoadGraph 0 (gapValue rowGap + 1) = None.
Proof. apply generateDownRoadData_nil_iff. Qed.

Lemma generateDownRoadData_empty_iff_witness :
  ([] : list DownRoadItem.t) = [] ↔
  itemAt smallRoadGrid 1 (gapValue CockroachRoadGap) = None
  ∧ itemAt smallRoadGrid 0 (gapValue CockroachRoadGap + 1) = None.
Proof.
  apply (generateDownRoadData_empty_iff smallRoadGrid CockroachRoadGap []).
  reflexivity.
Defined.

(** ** The sequence of the marks *)

Lemma emittingCells_sorted (bigRoadGraph : RoadArray BigRoadItem.t) b :
  StronglySorted orderLe (emittingCells bigRoadGraph b).
Proof. apply StronglySorted_filter, sortByOrder_sorted. Qed.

Lemma emittingCells_Permutation (bigRoadGraph : RoadArray BigRoadItem.t) b :
  emittingCells bigRoadGraph b
  ≡ₚ filter (λ item, b ≤ IndexItem.order item) (recordedCells bigRoadGraph).
Proof.
  unfold emittingCells. apply filter_Permutation, sortByOrder_Permutation.
Qed.

(** X3: when [beginIndex] is b, the output is not empty and its first mark
    carries the order b: the road opens with the mark of the cell that
    set [beginIndex] (or of a cell of the same order), and no mark has a
    smaller order. *)
Theorem first_mark_at_beginIndex
    (bigRoadGraph : RoadArray BigRoadItem.t) (rowGap : DownRoadGap) (b : Z) :
  beginIndex bigRoadGraph rowGap = Ok (Some b) →
  ∃ mark rest,
    generateDownRoadData bigRoadGraph rowGap = Ok (mark :: rest)
    ∧ DownRoadItem.order mark = b
    ∧ Forall (λ later, b ≤ DownRoadItem.order later) rest.
Proof.
  intros Hbegin. rewrite (generateDownRoadData_begin _ _ _ Hbegin).
  destruct (emittingCells_begin_cell _ _ _ Hbegin) as (item0 & Hin & Horder).
  pose proof (emittingCells_sorted bigRoadGraph b) as Hsorted.
  assert (∀ item, item ∈ emittingCells bigRoadGraph b →
                  b ≤ IndexItem.order item) as Hge.
  { by intros item [? _]%elem_of_emittingCells. }
  destruct (emittingCells bigRoadGraph b) as [|item items];
    [by apply elem_of_nil in Hin|].
  exists (markOf bigRoadGraph rowGap item),
    (markOf bigRoadGraph rowGap <$> items).
  split; [done|]. split.
  - simpl. apply Z.le_antisymm; [|apply Hge; left].
    apply elem_of_cons in Hin as [<-|Hin]; [lia|].
    apply StronglySorted_inv in Hsorted as [_ Hall].
    eapply Forall_forall in Hall; [|exact Hin].
    unfold orderLe in Hall. lia.
  - apply Forall_fmap, Forall_forall. intros item' Hin'. simpl.
    apply Hge. by right.
Qed.

Lemma first_mark_at_beginIndex_witness :
  ∃ mark rest,
    generateDownRoadData scenarioGrid BigEyeRoadGap = Ok (mark :: rest)
    ∧ DownRoadItem.order mark = 6
    ∧ Forall (λ later, 6 ≤ DownRoadItem.order later) rest.
Proof.
  apply (first_mark_at_beginIndex scenarioGrid BigEyeRoadGap 6).
  reflexivity.
Defined.

(** X4: on every grid, also one whose cells share orders, the orders of
    the output ascend (each mark has an order of at least that of the mark
    before it), they are, up to their sequence, the orders of the recorded
    cells whose order is at least [beginIndex], one mark for each such
    cell, and the output is never longer than the number of recorded
    cells. *)
Theorem marks_ascending_one_per_cell
    (bigRoadGraph : RoadArray BigRoadItem.t) (rowGap : DownRoadGap) (b : Z) :
  beginIndex bigRoadGraph rowGap = Ok (Some b) →
  ∃ out,
    generateDownRoadData bigRoadGraph rowGap = Ok out
    ∧ StronglySorted Z.le (DownRoadItem.order <$> out)
    ∧ DownRoadItem.order <$> out
      ≡ₚ IndexItem.order <$>
           filter (λ item, b ≤ IndexItem.order item)
                  (recordedCells bigRoadGraph)
    ∧ (length out ≤ length (recordedCells bigRoadGraph))%nat.
Proof.
  intros Hbegin. eexists. split; [by apply generateDownRoadData_begin|].
  rewrite order_markOf. split; [|split].
  - apply (StronglySorted_fmap _ orderLe); [done|].
    apply emittingCells_sorted.
  - by rewrite emittingCells_Permutation.
  - rewrite length_fmap, length_emittingCells. apply length_filter.
Qed.

Lemma marks_ascending_one_per_cell_witness :
  ∃ out,
    generateDownRoadData scenarioGrid BigEyeRoadGap = Ok out
    ∧ StronglySorted Z.le (DownRoadItem.order <$> out)
    ∧ DownRoadItem.order <$> out
      ≡ₚ IndexItem.order <$>
           filter (λ item, 6 ≤ IndexItem.order item)
                  (recordedCells scenarioGrid)
    ∧ (length out ≤ length (recordedCells scenarioGrid))%nat.
Proof.
  apply (marks_ascending_one_per_cell scenarioGrid BigEyeRoadGap 6).
  reflexivity.
Defined.

(** ** The scan, cell by cell *)

Lemma length_bind_sum {A B} (f : A → list B) (l : list A) :
  length (l ≫= f) = sum_list (length ∘ f <$> l).
Proof.
  induction l as [|x l IH]; [done|].
  rewrite bind_cons, length_app, IH. done.
Qed.

Lemma length_omap_filter {A B} (f : A → option B) (l : list A) :
  length (omap f l) = length (filter (λ x, is_Some (f x)) l).
Proof.
  induction l as [|x l IH]; [done|]. rewrite filter_cons.
  destruct (decide (is_Some (f x))) as [[y Hy]|Hnone]; simpl.
  - by rewrite Hy, <- IH.
  - destruct (f x) as [y|]; [|done]. exfalso. eauto.
Qed.

Lemma columnLength_rows (bigRoadGraph : RoadArray BigRoadItem.t) c :
  columnLength bigRoadGraph c
  = length (filter (λ r, is_Some (cellAt bigRoadGraph r c))
              (seq 0 (length bigRoadGraph))).
Proof.
  unfold columnLength, cellsOfColumn. rewrite length_omap_filter.
  f_equal. apply list_filter_iff. intros r. by rewrite fmap_is_Some.
Qed.

(** X5: the two loops over the columns and the rows never throw; they
    record every occupied cell of the grid exactly once, with its row, its
    column and its order, and nothing else; [lengthArr] has one entry for
    each of the [maxColumnCount] columns, the number of occupied cells of
    that column (an unfilled position between two cells is not counted);
    and the entries of [lengthArr] add up to the number of recorded
    cells. *)
Theorem scan_records_each_cell_once (bigRoadGraph : RoadArray BigRoadItem.t) :
  ∃ indexArr lengthArr,
    forLoop (maxColumnCount bigRoadGraph) (scanColumn bigRoadGraph) ([], [])
    = Ok (indexArr, lengthArr)
    ∧ NoDup indexArr
    ∧ (∀ r c o,
         IndexItem.new r c o ∈ indexArr ↔
         ∃ cell, cellAt bigRoadGraph r c = Some cell
                 ∧ BigRoadItem.order cell = o)
    ∧ length lengthArr = maxColumnCount bigRoadGraph
    ∧ (∀ c, (c < maxColumnCount bigRoadGraph)%nat →
            lengthArr !! c
            = Some (length (filter (λ r, is_Some (cellAt bigRoadGraph r c))
                              (seq 0 (length bigRoadGraph)))))
    ∧ sum_list lengthArr = length indexArr.
Proof.
  eexists _, _. split; [apply scan_recordedCells|].
  split; [apply NoDup_recordedCells|]. split; [|split; [|split]].
  - intros r c o. rewrite elem_of_recordedCells. simpl.
    split; intros (cell & Hcell & Horder); exists cell; by split.
  - by rewrite length_fmap, length_seq.
  - intros c Hc. rewrite list_lookup_fmap, lookup_seq_lt by done. simpl.
    by rewrite columnLength_rows.
  - unfold recordedCells. by rewrite length_bind_sum.
Qed.

(** ** Rows of any length *)

Lemma omap_ext_all {A B} (f g : A → option B) (l : list A) :
  (∀ x, f x = g x) → omap f l = omap g l.
Proof.
  intros Hfg. induction l as [|x l IH]; [done|]. simpl.
  rewrite Hfg. destruct (g x); [f_equal|]; exact IH.
Qed.

Lemma cellsOfColumn_rows (bigRoadGraph : RoadArray BigRoadItem.t) c n :
  (length bigRoadGraph ≤ n)%nat →
  cellsOfColumn bigRoadGraph c
  = omap (λ rowIndex,
            (λ item, IndexItem.new rowIndex c (BigRoadItem.order item))
              <$> cellAt bigRoadGraph rowIndex c)
         (seq 0 n).
Proof.
  intros Hn. unfold cellsOfColumn.
  replace n with (length bigRoadGraph + (n - length bigRoadGraph))%nat
    by lia.
  rewrite seq_app, omap_app.
  rewrite (elem_of_nil_inv (omap _ (seq (0 + length bigRoadGraph) _))).
  { by rewrite app_nil_r. }
  intros item (r & Hr & Hcell)%list_elem_of_omap.
  apply elem_of_seq in Hr.
  destruct (cellAt bigRoadGraph r c) as [cell|] eqn:Hc; [|done].
  apply cellAt_row_lt in Hc. lia.
Qed.

Lemma cellsOfColumn_beyond (bigRoadGraph : RoadArray BigRoadItem.t) c :
  (maxColumnCount bigRoadGraph ≤ c)%nat → cellsOfColumn bigRoadGraph c = [].
Proof.
  intros Hc. apply elem_of_nil_inv.
  intros item (_ & cell & Hcell & _)%elem_of_cellsOfColumn.
  apply cellAt_column_lt in Hcell. lia.
Qed.

Lemma recordedCells_columns (bigRoadGraph : RoadArray BigRoadItem.t) m :
  (maxColumnCount bigRoadGraph ≤ m)%nat →
  recordedCells bigRoadGraph = seq 0 m ≫= cellsOfColumn bigRoadGraph.
Proof.
  intros Hm. unfold recordedCells.
  replace m with (maxColumnCount bigRoadGraph
                  + (m - maxColumnCount bigRoadGraph))%nat by lia.
  rewrite seq_app, bind_app.
  rewrite (elem_of_nil_inv (seq (0 + maxColumnCount bigRoadGraph) _ ≫= _)).
  { by rewrite app_nil_r. }
  intros item (c & Hitem & Hc%elem_of_seq)%list_elem_of_bind.
  rewrite cellsOfColumn_beyond in Hitem by lia.
  by apply elem_of_nil in Hitem.
Qed.

Lemma itemAt_outside {T} (array : RoadArray T) (rowIndex columnIndex : Z) :
  rowIndex < 0 ∨ columnIndex < 0 → itemAt array rowIndex columnIndex = None.
Proof.
  intros Hneg. unfold itemAt.
  destruct (arrayGet array rowIndex) as [row|] eqn:Hrow; [|done]. simpl.
  destruct Hneg as [Hr|Hc].
  - by rewrite arrayGet_negative in Hrow.
  - by rewrite arrayGet_negative.
Qed.

Section SameCells.

Variables (grid1 grid2 : list (list (option BigRoadItem.t))).
Hypothesis same : ∀ r c, cellAt grid1 r c = cellAt grid2 r c.

Lemma same_cellsOfColumn c : cellsOfColumn grid1 c = cellsOfColumn grid2 c.
Proof.
  rewrite (cellsOfColumn_rows grid1 c (length grid1 `max` length grid2))
    by lia.
  rewrite (cellsOfColumn_rows grid2 c (length grid1 `max` length grid2))
    by lia.
  apply omap_ext_all. intros r. by rewrite same.
Qed.

Lemma same_recordedCells : recordedCells grid1 = recordedCells grid2.
Proof.
  rewrite (recordedCells_columns grid1
             (maxColumnCount grid1 `max` maxColumnCount grid2)) by lia.
  rewrite (recordedCells_columns grid2
             (maxColumnCount grid1 `max` maxColumnCount grid2)) by lia.
  induction (seq 0 _) as [|c cs IH]; [done|].
  by rewrite !bind_cons, IH, same_cellsOfColumn.
Qed.

Lemma same_itemAt (r c : Z) : itemAt grid1 r c = itemAt grid2 r c.
Proof.
  destruct (decide (0 ≤ r ∧ 0 ≤ c)) as [[Hr Hc]|Hneg].
  - by rewrite !itemAt_nonneg, same by done.
  - by rewrite !itemAt_outside by lia.
Qed.

End SameCells.

Lemma same_lengthOfColumn (grid1 grid2 : RoadArray BigRoadItem.t) (k : Z)
    (c : nat) :
  (∀ r c, cellAt grid1 r c = cellAt grid2 r c) →
  k < Z.of_nat c →
  (c < maxColumnCount grid1)%nat → (c < maxColumnCount grid2)%nat →
  lengthOfColumn grid1 k = lengthOfColumn grid2 k.
Proof.
  intros Hsame Hk Hc1 Hc2. destruct (decide (0 ≤ k)) as [Hpos|Hneg].
  - rewrite !lengthOfColumn_column by lia. unfold columnLength.
    by rewrite (same_cellsOfColumn grid1 grid2 Hsame).
  - by rewrite !lengthOfColumn_negative by lia.
Qed.

Lemma same_markOf (grid1 grid2 : RoadArray BigRoadItem.t) rowGap item :
  (∀ r c, cellAt grid1 r c = cellAt grid2 r c) →
  item ∈ recordedCells grid1 →
  markOf grid1 rowGap item = markOf grid2 rowGap item.
Proof.
  intros Hsame (cell & Hcell & _)%elem_of_recordedCells.
  pose proof (cellAt_column_lt _ _ _ _ Hcell) as Hc1.
  rewrite Hsame in Hcell.
  pose proof (cellAt_column_lt _ _ _ _ Hcell) as Hc2.
  pose proof (gapValue_pos rowGap) as Hgap.
  unfold markOf. f_equal.
  rewrite !(same_itemAt grid1 grid2 Hsame).
  rewrite (same_lengthOfColumn grid1 grid2 _ (IndexItem.columnIndex item))
    by (done || lia).
  rewrite (same_lengthOfColumn grid1 grid2 (_ - 1)
             (IndexItem.columnIndex item)) by (done || lia).
  done.
Qed.

Lemma same_beginIndex (grid1 grid2 : RoadArray BigRoadItem.t) rowGap :
  (∀ r c, cellAt grid1 r c = cellAt grid2 r c) →
  ((2 ≤ length grid1)%nat ↔ (2 ≤ length grid2)%nat) →
  beginIndex grid1 rowGap = beginIndex grid2 rowGap.
Proof.
  intros Hsame Hrows.
  destruct (decide (2 ≤ length grid1)%nat) as [Hrows1|Hrows1].
  - rewrite !beginIndex_rows by (done || by apply Hrows).
    by rewrite !(same_itemAt grid1 grid2 Hsame).
  - rewrite !beginIndex_no_row1; [done| |lia].
    destruct (decide (2 ≤ length grid2)%nat) as [Hrows2|]; [|lia].
    apply Hrows in Hrows2. lia.
Qed.

(** X6: the builder looks at nothing but the cells: two grids that hold the
    same cell, or no cell, at every position, and that both have or both
    lack the rows 0 and 1, give the same result, whether a row ends after
    its last cell or goes on with unfilled positions, and however many
    empty rows follow. *)
Theorem generateDownRoadData_same_cells
    (grid1 grid2 : RoadArray BigRoadItem.t) (rowGap : DownRoadGap) :
  (∀ r c, cellAt grid1 r c = cellAt grid2 r c) →
  ((2 ≤ length grid1)%nat ↔ (2 ≤ length grid2)%nat) →
  generateDownRoadData grid1 rowGap = generateDownRoadData grid2 rowGap.
Proof.
  intros Hsame Hrows.
  pose proof (same_beginIndex grid1 grid2 rowGap Hsame Hrows) as Hbegin.
  destruct (beginIndex grid1 rowGap) as [[b|]|e] eqn:Hb1.
  - rewrite (generateDownRoadData_begin _ _ _ Hb1).
    rewrite (generateDownRoadData_begin grid2 rowGap b) by done.
    f_equal. unfold emittingCells.
    rewrite <- (same_recordedCells grid1 grid2 Hsame).
    apply list_fmap_ext. intros i item Hitem.
    apply (same_markOf grid1 grid2 rowGap item Hsame).
    apply list_elem_of_lookup_2, list_elem_of_filter in Hitem as [_ Hitem].
    by apply (proj1 (elem_of_sortByOrder _ _)) in Hitem.
  - rewrite (generateDownRoadData_no_begin _ _ Hb1).
    by rewrite (generateDownRoadData_no_begin grid2 rowGap).
  - rewrite (generateDownRoadData_throw _ _ _ Hb1).
    by rewrite (generateDownRoadData_throw grid2 rowGap e).
Qed.

Lemma generateDownRoadData_same_cells_witness :
  generateDownRoadData scenarioGrid BigEyeRoadGap
  = generateDownRoadData paddedScenarioGrid BigEyeRoadGap.
Proof.
  apply (generateDownRoadData_same_cells scenarioGrid paddedScenarioGrid
           BigEyeRoadGap).
  - intros r c.
    do 6 (destruct r as [|r];
          [do 4 (destruct c as [|c]; [reflexivity|]); reflexivity|]).
    reflexivity.
  - simpl. lia.
Defined.

(** ** A continuing cell beside a contiguous column *)

Lemma filter_seq_all (P : nat → Prop) `{∀ r, Decision (P r)} (n : nat) :
  (∀ r, (r < n)%nat → P r) → filter P (seq 0 n) = seq 0 n.
Proof.
  intros Hall. induction n as [|n IH]; [done|].
  rewrite seq_S, filter_app, IH by (intros; apply Hall; lia).
  rewrite filter_cons, decide_True by (apply Hall; lia). done.
Qed.

Lemma downward_closed_count (P : nat → Prop) `{∀ r, Decision (P r)} (n : nat) :
  (∀ r, P (S r) → P r) →
  ∀ r, (r < n)%nat → P r ↔ (r < length (filter P (seq 0 n)))%nat.
Proof.
  intros Hdown.
  assert (∀ m r, (r ≤ m)%nat → P m → P r) as Hle.
  { intros m r Hr. induction Hr as [|m Hr IH]; [done|].
    intros Hm. by apply IH, Hdown. }
  induction n as [|n IH]; intros r Hr; [lia|].
  rewrite seq_S, filter_app, length_app, filter_cons. simpl.
  pose proof (length_filter P (seq 0 n)) as Hbound.
  rewrite length_seq in Hbound.
  destruct (decide (P n)) as [Hn|Hn]; simpl.
  - rewrite filter_seq_all by (intros r' Hr'; apply (Hle n); [lia|done]).
    rewrite length_seq. split; [lia|]. intros _. apply (Hle n); [lia|done].
  - rewrite Nat.add_0_r. destruct (decide (r = n)) as [->|Hne].
    + split; [done|lia].
    + apply IH. lia.
Qed.

Lemma columnContiguous_present (bigRoadGraph : RoadArray BigRoadItem.t)
    (r c : nat) :
  columnContiguous bigRoadGraph c →
  is_Some (cellAt bigRoadGraph r c) ↔ (r < columnLength bigRoadGraph c)%nat.
Proof.
  intros Hcontiguous. rewrite columnLength_rows.
  destruct (decide (r < length bigRoadGraph)%nat) as [Hr|Hr].
  - by apply (downward_closed_count
                (λ r, is_Some (cellAt bigRoadGraph r c))
                (length bigRoadGraph)).
  - pose proof (length_filter (λ r, is_Some (cellAt bigRoadGraph r c))
                  (seq 0 (length bigRoadGraph))) as Hbound.
    rewrite length_seq in Hbound. split; [|lia].
    intros [cell Hcell]. apply cellAt_row_lt in Hcell. lia.
Qed.

(** X7: for a recorded cell at a row r greater than 0 of a column c whose
    order is at least [beginIndex]: in the first g columns, where the
    column g to the left does not exist, the mark has [repetition = true];
    and from column g on, if the occupied cells of column c - g form a run
    from row 0, the mark has [repetition = false] exactly when that column
    has r occupied cells, that is, when it ends just above the row of the
    cell. *)
Theorem lower_row_repetition_by_length
    (bigRoadGraph : RoadArray BigRoadItem.t) (rowGap : DownRoadGap)
    (b : Z) (r c : nat) (cell : BigRoadItem.t) :
  beginIndex bigRoadGraph rowGap = Ok (Some b) →
  (0 < r)%nat →
  cellAt bigRoadGraph r c = Some cell →
  b ≤ BigRoadItem.order cell →
  ∃ out,
    generateDownRoadData bigRoadGraph rowGap = Ok out
    ∧ (∃ mark, emittedFor bigRoadGraph b out
                 (IndexItem.new r c (BigRoadItem.order cell)) mark)
    ∧ ∀ mark,
        emittedFor bigRoadGraph b out
          (IndexItem.new r c (BigRoadItem.order cell)) mark →
        (Z.of_nat c < gapValue rowGap → DownRoadItem.repetition mark = true)
        ∧ (gapValue rowGap ≤ Z.of_nat c →
           columnContiguous bigRoadGraph
             (Z.to_nat (Z.of_nat c - gapValue rowGap)) →
           DownRoadItem.repetition mark = false ↔
           columnLength bigRoadGraph
             (Z.to_nat (Z.of_nat c - gapValue rowGap)) = r).
Proof.
  intros Hbegin Hr Hcell Hle.
  eexists. split; [by apply generateDownRoadData_begin|].
  split; [by apply emittedFor_recorded|].
  intros mark ->%emittedFor_markOf. unfold markOf. simpl.
  rewrite bool_decide_false by lia. split.
  - intros Hleft. by rewrite (itemAt_outside _ (Z.of_nat r - 1)) by lia.
  - intros Hright Hcontiguous.
    rewrite !itemAt_nonneg by lia.
    replace (Z.to_nat (Z.of_nat r - 1)) with (r - 1)%nat by lia.
    rewrite Nat2Z.id.
    set (k := Z.to_nat (Z.of_nat c - gapValue rowGap)) in *.
    pose proof (columnContiguous_present bigRoadGraph (r - 1) k Hcontiguous)
      as Habove.
    pose proof (columnContiguous_present bigRoadGraph r k Hcontiguous)
      as Hbeside.
    destruct (cellAt bigRoadGraph (r - 1) k) as [lastItem|];
      destruct (cellAt bigRoadGraph r k) as [targetItem|]; simpl.
    + split; [done|]. intros Hlen.
      assert (r < columnLength bigRoadGraph k)%nat by (apply Hbeside; eauto).
      lia.
    + split; [|done]. intros _.
      assert (r - 1 < columnLength bigRoadGraph k)%nat
        by (apply Habove; eauto).
      assert (¬ (r < columnLength bigRoadGraph k)%nat)
        by (intros [? [=]]%Hbeside).
      lia.
    + split; [done|]. intros Hlen.
      assert (is_Some (@None BigRoadItem.t)) as [? [=]]
        by (apply Habove; lia).
    + split; [done|]. intros Hlen.
      assert (is_Some (@None BigRoadItem.t)) as [? [=]]
        by (apply Habove; lia).
Qed.

Lemma lower_row_repetition_by_length_witness :
  ∃ out,
    generateDownRoadData smallRoadGrid BigEyeRoadGap = Ok out
    ∧ (∃ mark, emittedFor smallRoadGrid 2 out (IndexItem.new 1 1 2) mark)
    ∧ ∀ mark,
        emittedFor smallRoadGrid 2 out (IndexItem.new 1 1 2) mark →
        DownRoadItem.repetition mark = false ↔
        columnLength smallRoadGrid 0 = 1%nat.
Proof.
  destruct (lower_row_repetition_by_length smallRoadGrid BigEyeRoadGap 2 1 1
              (BigRoadItem.new 2))
    as (out & Hout & Hmark & Hrule).
  - reflexivity.
  - lia.
  - reflexivity.
  - simpl. lia.
  - exists out. split; [done|]. split; [done|].
    intros mark Hemitted. apply (Hrule mark Hemitted).
    + simpl. lia.
    + intros r [cell Hcell]. destruct r as [|[|r]]; simpl in *; by eauto.
Defined.

(** ** Copies of rounds in the store *)

(** X8: [RoundResult.from] returns a new object: its reference is one no
    object of the store had, so it differs from the reference of the
    source and of every other round; the new object has the four fields of
    the source; and the source, every other object and every array are as
    they were. *)
Theorem RoundResult_from_copy (σ : Store) (source : positive)
    (v : RoundResult.t) :
  objects σ !! source = Some v →
  ∃ copy σ',
    RoundResult_from source σ = (Ok copy, σ')
    ∧ objects σ !! copy = None
    ∧ copy ≠ source
    ∧ objects σ' !! copy
      = Some (RoundResult.new (RoundResult.order v) (RoundResult.result v)
                (RoundResult.gameResult v) (RoundResult.pairResult v))
    ∧ (∀ l w, objects σ !! l = Some w → objects σ' !! l = Some w)
    ∧ arrays σ' = arrays σ.
Proof.
  intros Hsource.
  assert (objects σ !! fresh (dom (objects σ)) = None) as Hfresh.
  { apply not_elem_of_dom, is_fresh. }
  eexists _, _. split.
  { unfold RoundResult_from. erewrite Heap_bind_run; [reflexivity|].
    unfold readObject. by rewrite Hsource. }
  simpl. split; [done|]. split; [congruence|].
  split; [by rewrite lookup_insert_eq|]. split; [|done].
  intros l w Hl. rewrite lookup_insert_ne; [done|]. congruence.
Qed.

Lemma RoundResult_from_copy_witness :
  ∃ copy σ',
    RoundResult_from 2%positive threeRounds = (Ok copy, σ')
    ∧ objects threeRounds !! copy = None
    ∧ copy ≠ 2%positive
    ∧ objects σ' !! copy = Some (RoundResult.new 1 7 PlayerWin NoPair)
    ∧ (∀ l w, objects threeRounds !! l = Some w → objects σ' !! l = Some w)
    ∧ arrays σ' = arrays threeRounds.
Proof.
  apply (RoundResult_from_copy threeRounds 2%positive
           (RoundResult.new 1 7 PlayerWin NoPair)).
  reflexivity.
Defined.

Lemma copies_of_rounds_distinct σ refs vs :
  holds σ refs vs →
  ∃ copies σ',
    mapHeap RoundResult_from refs σ = (Ok copies, σ')
    ∧ arrays σ' = arrays σ
    ∧ objects σ ⊆ objects σ'
    ∧ Forall (λ l', objects σ !! l' = None) copies
    ∧ NoDup copies
    ∧ holds σ' copies vs.
Proof.
  intros Hholds. revert σ vs Hholds.
  induction refs as [|l refs IH]; intros σ vs Hholds.
  - apply Forall2_nil_inv_l in Hholds as ->.
    exists [], σ. by repeat split; try constructor.
  - apply Forall2_cons_inv_l in Hholds as (v & vs' & Hl & Hrest & ->).
    set (l' := fresh (dom (objects σ))).
    set (σ1 := mkStore (<[l' := RoundResult.from v]> (objects σ)) (arrays σ)).
    assert (objects σ !! l' = None) as Hfresh.
    { apply not_elem_of_dom. apply is_fresh. }
    assert (objects σ ⊆ objects σ1) as Hsub1.
    { simpl. by apply insert_subseteq. }
    destruct (IH σ1 vs')
      as (copies & σ' & Hrun & Harrays & Hsub & Hnew & Hnodup & Hcopies).
    { by eapply holds_weaken. }
    exists (l' :: copies), σ'.
    split; [|split; [|split; [|split; [|split]]]].
    + simpl. unfold mbind, Heap_bind, RoundResult_from at 1.
      unfold mbind, Heap_bind, readObject. rewrite Hl.
      unfold newObject. fold l'. fold σ1. by rewrite Hrun.
    + by rewrite Harrays.
    + by etrans.
    + constructor; [done|]. eapply Forall_impl; [exact Hnew|].
      intros l2 Hl2. exact (lookup_weaken_None _ _ _ Hl2 Hsub1).
    + constructor; [|done]. intros Hin.
      eapply Forall_forall in Hnew; [|exact Hin].
      simpl in Hnew. by rewrite lookup_insert_eq in Hnew.
    + constructor; [|done]. eapply lookup_weaken; [|exact Hsub].
      simpl. by rewrite lookup_insert_eq, RoundResult_from_eq.
Qed.

(** X9: mapping [RoundResult.from] over an array of rounds gives a new
    array of as many new objects, pairwise reference-distinct even where
    the mapped array lists one round object several times, none of them an
    object the store had, and field-equal to the rounds in their sequence;
    the mapped array and the rounds behind it are as they were. *)
Theorem Array_map_from_distinct (σ : Store) (a : positive)
    (refs : list positive) (vs : list RoundResult.t) :
  arrays σ !! a = Some refs →
  holds σ refs vs →
  ∃ a' copies σ',
    Array_map RoundResult_from a σ = (Ok a', σ')
    ∧ a' ≠ a
    ∧ arrays σ' !! a' = Some copies
    ∧ arrays σ' !! a = Some refs
    ∧ length copies = length refs
    ∧ NoDup copies
    ∧ Forall (λ l', objects σ !! l' = None ∧ l' ∉ refs) copies
    ∧ holds σ' copies vs
    ∧ holds σ' refs vs.
Proof.
  intros Harray Hholds.
  destruct (copies_of_rounds_distinct σ refs vs Hholds)
    as (copies & σ1 & Hrun & Harrays & Hsub & Hnew & Hnodup & Hcopies).
  assert (arrays σ !! fresh (dom (arrays σ)) = None) as Hfresh.
  { apply not_elem_of_dom, is_fresh. }
  exists (fresh (dom (arrays σ))), copies,
    (mkStore (objects σ1) (<[fresh (dom (arrays σ)) := copies]> (arrays σ))).
  split.
  { unfold Array_map. erewrite Heap_bind_run; cycle 1.
    { unfold readArray. by rewrite Harray. }
    erewrite Heap_bind_run; [|exact Hrun].
    unfold newArray. by rewrite Harrays. }
  simpl. split; [congruence|]. split; [by rewrite lookup_insert_eq|].
  split; [rewrite lookup_insert_ne; [done|congruence]|].
  split; [apply Forall2_length in Hholds, Hcopies; congruence|].
  split; [done|]. split; [|split; [done|by eapply holds_weaken]].
  eapply Forall_impl; [exact Hnew|]. intros l' Hl'. split; [done|].
  intros Hin. apply list_elem_of_lookup_1 in Hin as [i Hi].
  destruct (Forall2_lookup_l _ _ _ _ _ Hholds Hi) as (v & _ & Hv).
  congruence.
Qed.

Lemma Array_map_from_distinct_witness :
  ∃ a' copies σ',
    Array_map RoundResult_from 1%positive aliasedHistory = (Ok a', σ')
    ∧ a' ≠ 1%positive
    ∧ arrays σ' !! a' = Some copies
    ∧ arrays σ' !! 1%positive = Some [1%positive; 1%positive]
    ∧ length copies = length [1%positive; 1%positive]
    ∧ NoDup copies
    ∧ Forall (λ l', objects aliasedHistory !! l' = None
                    ∧ l' ∉ [1%positive; 1%positive]) copies
    ∧ holds σ' copies [RoundResult.new 0 8 BankerWin NoPair;
                       RoundResult.new 0 8 BankerWin NoPair]
    ∧ holds σ' [1%positive; 1%positive]
        [RoundResult.new 0 8 BankerWin NoPair;
         RoundResult.new 0 8 BankerWin NoPair].
Proof.
  apply (Array_map_from_distinct aliasedHistory 1%positive).
  - reflexivity.
  - repeat constructor.
Defined.

(** ** What a prediction depends on *)

(** X10: over a primary grid of the simulation that has the rows 0 and 1,
    the prediction is "unknown" exactly when that grid has neither the cell
    at (row 1, column g) nor the cell at (row 0, column g + 1); as soon as
    one of the two is present the prediction is a colour: the call returns
    a boolean. *)
Theorem prediction_unknown_iff
    (SharedBigRoad_rawArray :
       number → number → list RoundResult.t → RoadArray BigRoadItem.t)
    (this : DownRoad.t) (fakeNextRound : positive)
    (downRoadGap : DownRoadGap) (σ : Store)
    (history : list positive) (vs : list RoundResult.t) (fv : RoundResult.t) :
  arrays σ !! DownRoad.roundResults this = Some history →
  holds σ history vs →
  objects σ !! fakeNextRound = Some fv →
  (2 ≤ length (simulatedGrid SharedBigRoad_rawArray this vs fv))%nat →
  ((getPrediction SharedBigRoad_rawArray this fakeNextRound downRoadGap σ).1
   = Ok None ↔
   itemAt (simulatedGrid SharedBigRoad_rawArray this vs fv) 1
     (gapValue downRoadGap) = None
   ∧ itemAt (simulatedGrid SharedBigRoad_rawArray this vs fv) 0
       (gapValue downRoadGap + 1) = None)
  ∧ (¬ (itemAt (simulatedGrid SharedBigRoad_rawArray this vs fv) 1
          (gapValue downRoadGap) = None
        ∧ itemAt (simulatedGrid SharedBigRoad_rawArray this vs fv) 0
            (gapValue downRoadGap + 1) = None) →
     ∃ colour : bool,
       (getPrediction SharedBigRoad_rawArray this fakeNextRound downRoadGap
          σ).1
       = Ok (Some colour)).
Proof.
  intros Hhistory Hholds Hfake Hrows.
  destruct (getPrediction_run SharedBigRoad_rawArray this fakeNextRound
              downRoadGap σ history vs fv Hhistory Hholds Hfake)
    as (copies & σ' & Hrun & _).
  rewrite Hrun. simpl.
  apply (generateDownRoadData_rows _ downRoadGap) in Hrows as [marks Hmarks].
  rewrite Hmarks. rewrite <- (generateDownRoadData_nil_iff _ _ _ Hmarks).
  unfold lastRepetition. simpl. split; [split|].
  - intros [= Hlast]. apply fmap_None in Hlast. by apply last_None.
  - by intros ->.
  - intros Hmark. destruct (last marks) as [mark|] eqn:Hlast.
    + by exists (DownRoadItem.repetition mark).
    + by apply last_None in Hlast.
Qed.

Lemma prediction_unknown_iff_witness :
  ((getPrediction oneRoundPerColumn sixByTen 4%positive BigEyeRoadGap
      threeRounds).1
   = Ok None ↔
   itemAt (simulatedGrid oneRoundPerColumn sixByTen
             [RoundResult.new 0 8 BankerWin NoPair;
              RoundResult.new 1 7 PlayerWin NoPair;
              RoundResult.new 2 9 BankerWin BankerPair]
             (RoundResult.new 3 0 PlayerWin NoPair)) 1
     (gapValue BigEyeRoadGap) = None
   ∧ itemAt (simulatedGrid oneRoundPerColumn sixByTen
               [RoundResult.new 0 8 BankerWin NoPair;
                RoundResult.new 1 7 PlayerWin NoPair;
                RoundResult.new 2 9 BankerWin BankerPair]
               (RoundResult.new 3 0 PlayerWin NoPair)) 0
       (gapValue BigEyeRoadGap + 1) = None)
  ∧ (¬ (itemAt (simulatedGrid oneRoundPerColumn sixByTen
                  [RoundResult.new 0 8 BankerWin NoPair;
                   RoundResult.new 1 7 PlayerWin NoPair;
                   RoundResult.new 2 9 BankerWin BankerPair]
                  (RoundResult.new 3 0 PlayerWin NoPair)) 1
          (gapValue BigEyeRoadGap) = None
        ∧ itemAt (simulatedGrid oneRoundPerColumn sixByTen
                    [RoundResult.new 0 8 BankerWin NoPair;
                     RoundResult.new 1 7 PlayerWin NoPair;
                     RoundResult.new 2 9 BankerWin BankerPair]
                    (RoundResult.new 3 0 PlayerWin NoPair)) 0
            (gapValue BigEyeRoadGap + 1) = None) →
     ∃ colour : bool,
       (getPrediction oneRoundPerColumn sixByTen 4%positive BigEyeRoadGap
          threeRounds).1
       = Ok (Some colour)).
Proof.
  apply (prediction_unknown_iff oneRoundPerColumn sixByTen 4%positive
           BigEyeRoadGap threeRounds [1%positive; 2%positive; 3%positive]).
  - reflexivity.
  - repeat constructor.
  - reflexivity.
  - simpl. lia.
Defined.

(** X11: a prediction depends on the rounds only through their fields:
    two roads of the same dimensions whose histories hold field-equal
    rounds in the same sequence, at whatever references and in whatever
    stores, give the same prediction for field-equal hypothetical rounds
    and the same gap. *)
Theorem prediction_depends_on_fields
    (SharedBigRoad_rawArray :
       number → number → list RoundResult.t → RoadArray BigRoadItem.t)
    (this1 this2 : DownRoad.t) (fake1 fake2 : positive)
    (downRoadGap : DownRoadGap) (σ1 σ2 : Store)
    (history1 history2 : list positive)
    (vs : list RoundResult.t) (fv : RoundResult.t) :
  DownRoad.row this1 = DownRoad.row this2 →
  DownRoad.column this1 = DownRoad.column this2 →
  arrays σ1 !! DownRoad.roundResults this1 = Some history1 →
  arrays σ2 !! DownRoad.roundResults this2 = Some history2 →
  holds σ1 history1 vs →
  holds σ2 history2 vs →
  objects σ1 !! fake1 = Some fv →
  objects σ2 !! fake2 = Some fv →
  (getPrediction SharedBigRoad_rawArray this1 fake1 downRoadGap σ1).1
  = (getPrediction SharedBigRoad_rawArray this2 fake2 downRoadGap σ2).1.
Proof.
  intros Hrow Hcolumn Hhistory1 Hhistory2 Hholds1 Hholds2 Hfake1 Hfake2.
  destruct (getPrediction_run SharedBigRoad_rawArray this1 fake1
              downRoadGap σ1 history1 vs fv Hhistory1 Hholds1 Hfake1)
    as (copies1 & σ1' & -> & _).
  destruct (getPrediction_run SharedBigRoad_rawArray this2 fake2
              downRoadGap σ2 history2 vs fv Hhistory2 Hholds2 Hfake2)
    as (copies2 & σ2' & -> & _).
  simpl. unfold simulatedGrid. by rewrite Hrow, Hcolumn.
Qed.

Lemma prediction_depends_on_fields_witness :
  (getPrediction oneRoundPerColumn sixByTen 4%positive BigEyeRoadGap
     threeRounds).1
  = (getPrediction oneRoundPerColumn sixByTenElsewhere 2%positive
       BigEyeRoadGap threeRoundsElsewhere).1.
Proof.
  apply (prediction_depends_on_fields oneRoundPerColumn sixByTen
           sixByTenElsewhere 4%positive 2%positive BigEyeRoadGap
           threeRounds threeRoundsElsewhere
           [1%positive; 2%positive; 3%positive]
           [12%positive; 5%positive; 9%positive]
           [RoundResult.new 0 8 BankerWin NoPair;
            RoundResult.new 1 7 PlayerWin NoPair;
            RoundResult.new 2 9 BankerWin BankerPair]
           (RoundResult.new 3 0 PlayerWin NoPair)).
  - reflexivity.
  - reflexivity.
  - reflexivity.
  - reflexivity.
  - repeat constructor.
  - repeat constructor.
  - reflexivity.
  - reflexivity.
Defined.

(** ** Marks that stay when cells are appended *)

Lemma sorted_partition {A} (R : relation A) (P : A → Prop)
    `{∀ x, Decision (P x)} (l : list A) :
  StronglySorted R l →
  (∀ x y, x ∈ l → y ∈ l → P y → ¬ P x → ¬ R x y) →
  l = filter P l ++ filter (λ x, ¬ P x) l.
Proof.
  induction 1 as [|x l Hsorted IH Hall]; intros Hsplit; [done|].
  rewrite !filter_cons. destruct (decide (P x)) as [Hx|Hx].
  - rewrite decide_False by tauto. simpl. f_equal. apply IH.
    intros y z Hy Hz. apply Hsplit; by right.
  - rewrite decide_True by done.
    assert (filter P l = []) as Hnone.
    { apply elem_of_nil_inv. intros y [Hy Hin]%list_elem_of_filter.
      eapply (Hsplit x y); [by left|by right|done|done|].
      by eapply Forall_forall in Hall. }
    rewrite Hnone. simpl. f_equal.
    rewrite Hnone in IH. simpl in IH. apply IH.
    intros y z Hy Hz. apply Hsplit; by right.
Qed.

Lemma cellsOfColumn_same_column (grid1 grid2 : RoadArray BigRoadItem.t) c :
  (∀ r, cellAt grid1 r c = cellAt grid2 r c) →
  cellsOfColumn grid1 c = cellsOfColumn grid2 c.
Proof.
  intros Hsame.
  rewrite (cellsOfColumn_rows grid1 c (length grid1 `max` length grid2))
    by lia.
  rewrite (cellsOfColumn_rows grid2 c (length grid1 `max` length grid2))
    by lia.
  apply omap_ext_all. intros r. by rewrite Hsame.
Qed.

Section AppendedRight.

Variables (before after : list (list (option BigRoadItem.t))).
Hypothesis appended : appendedRight before after.

Lemma appended_recorded item :
  item ∈ recordedCells before → item ∈ recordedCells after.
Proof.
  destruct appended as (_ & Hstay & _).
  intros (cell & Hcell & Horder)%elem_of_recordedCells.
  apply elem_of_recordedCells. eauto.
Qed.

Lemma appended_old item :
  item ∈ recordedCells after →
  is_Some (cellAt before (IndexItem.rowIndex item) (IndexItem.columnIndex item))
  ↔ item ∈ recordedCells before.
Proof.
  destruct appended as (_ & Hstay & _).
  intros (cell & Hcell & Horder)%elem_of_recordedCells. split.
  - intros [cell' Hcell']. apply elem_of_recordedCells.
    exists cell'. split; [done|].
    apply Hstay in Hcell' as Hafter. congruence.
  - intros (cell' & Hcell' & _)%elem_of_recordedCells. eauto.
Qed.

Lemma appended_lengthOfColumn r c cell (k : Z) :
  cellAt before r c = Some cell → k < Z.of_nat c →
  lengthOfColumn before k = lengthOfColumn after k.
Proof.
  destruct appended as (_ & Hstay & Hleft & _). intros Hcell Hk.
  pose proof (cellAt_column_lt _ _ _ _ Hcell) as Hc1.
  pose proof (cellAt_column_lt _ _ _ _ (Hstay _ _ _ Hcell)) as Hc2.
  destruct (decide (0 ≤ k)) as [Hpos|Hneg].
  - rewrite !lengthOfColumn_column by lia. unfold columnLength.
    rewrite (cellsOfColumn_same_column before after (Z.to_nat k)); [done|].
    intros r'. symmetry. apply (Hleft r c cell); [done|lia].
  - by rewrite !lengthOfColumn_negative by lia.
Qed.

Lemma appended_itemAt r c cell (r' k : Z) :
  cellAt before r c = Some cell → k < Z.of_nat c →
  itemAt before r' k = itemAt after r' k.
Proof.
  destruct appended as (_ & _ & Hleft & _). intros Hcell Hk.
  destruct (decide (0 ≤ r' ∧ 0 ≤ k)) as [[Hr Hpos]|Hneg].
  - rewrite !itemAt_nonneg by done. symmetry. apply (Hleft r c cell); [done|].
    lia.
  - by rewrite !itemAt_outside by lia.
Qed.

Lemma appended_markOf rowGap item :
  item ∈ recordedCells before →
  markOf before rowGap item = markOf after rowGap item.
Proof.
  intros (cell & Hcell & _)%elem_of_recordedCells.
  pose proof (gapValue_pos rowGap) as Hgap.
  unfold markOf. f_equal.
  rewrite (appended_lengthOfColumn _ _ _ (_ - gapValue rowGap - 1) Hcell)
    by lia.
  rewrite (appended_lengthOfColumn _ _ _
             (Z.of_nat (IndexItem.columnIndex item) - 1) Hcell) by lia.
  rewrite (appended_itemAt _ _ _ (Z.of_nat (IndexItem.rowIndex item) - 1)
             (_ - gapValue rowGap) Hcell) by lia.
  rewrite (appended_itemAt _ _ _ (Z.of_nat (IndexItem.rowIndex item))
             (_ - gapValue rowGap) Hcell) by lia.
  done.
Qed.

Lemma appended_beginIndex rowGap b :
  beginIndex before rowGap = Ok (Some b) →
  beginIndex after rowGap = Ok (Some b).
Proof.
  destruct appended as (Hrows & Hstay & Hleft & _). intros Hbegin.
  assert (2 ≤ length before)%nat as Hbefore.
  { destruct (decide (2 ≤ length before)%nat) as [|Hlt]; [done|].
    by rewrite beginIndex_no_row1 in Hbegin by lia. }
  rewrite beginIndex_cells in Hbegin by done.
  rewrite beginIndex_cells by lia.
  set (g := Z.to_nat (gapValue rowGap)) in *.
  destruct (cellAt before 1 g) as [item1|] eqn:H1.
  { by rewrite (Hstay _ _ _ H1). }
  destruct (cellAt before 0 (S g)) as [item2|] eqn:H2; [|done].
  rewrite (Hleft 0%nat (S g) item2 g 1%nat H2) by lia.
  by rewrite H1, (Hstay _ _ _ H2).
Qed.

Lemma appended_emittingCells b :
  uniqueOrders after →
  ∃ added, emittingCells after b = emittingCells before b ++ added.
Proof.
  intros Hunique.
  destruct appended as (_ & Hstay & _ & Hlater).
  set (old := λ item : IndexItem.t,
         is_Some (cellAt before (IndexItem.rowIndex item)
                    (IndexItem.columnIndex item))).
  exists (filter (λ item, ¬ old item) (emittingCells after b)).
  rewrite (sorted_partition orderLe old (emittingCells after b)) at 1.
  - f_equal.
    apply (StronglySorted_unique_strong orderLe).
    + intros x y [_ [_ Hx]%elem_of_emittingCells]%list_elem_of_filter
        Hy%elem_of_emittingCells Hxy Hyx.
      destruct Hy as [_ Hy].
      apply (NoDup_fmap_elem_inj IndexItem.order (recordedCells after)).
      * by apply uniqueOrders_NoDup.
      * by apply elem_of_recordedCells.
      * apply appended_recorded. by apply elem_of_recordedCells.
      * unfold orderLe in *. lia.
    + apply StronglySorted_filter, emittingCells_sorted.
    + apply emittingCells_sorted.
    + apply NoDup_Permutation.
      * apply NoDup_filter. rewrite emittingCells_Permutation.
        apply NoDup_filter, NoDup_recordedCells.
      * rewrite emittingCells_Permutation.
        apply NoDup_filter, NoDup_recordedCells.
      * intros item. rewrite list_elem_of_filter.
        rewrite !elem_of_emittingCells, <- !elem_of_recordedCells.
        split.
        -- intros [Hold [Hb Hafter]]. split; [done|].
           by apply appended_old.
        -- intros [Hb Hbefore]. split; [|split; [done|]].
           ++ apply appended_old; [|done]. by apply appended_recorded.
           ++ by apply appended_recorded.
  - apply emittingCells_sorted.
  - intros x y [_ Hx]%elem_of_emittingCells [_ Hy]%elem_of_emittingCells
      Hold Hnew Hle.
    destruct Hx as (cellx & Hcellx & Horderx).
    destruct Hold as [celly Hcelly].
    assert (cellAt before (IndexItem.rowIndex x) (IndexItem.columnIndex x)
            = None) as Hnone.
    { destruct (cellAt before (IndexItem.rowIndex x)
                  (IndexItem.columnIndex x)) eqn:Hc; [|done].
      exfalso. apply Hnew. unfold old. rewrite Hc. eauto. }
    pose proof (Hlater _ _ _ _ _ _ Hcellx Hnone Hcelly) as Hlt.
    destruct Hy as (celly' & Hcelly' & Hordery).
    rewrite (Hstay _ _ _ Hcelly) in Hcelly'. injection Hcelly' as <-.
    unfold orderLe in Hle. lia.
Qed.

End AppendedRight.

(** X12: when cells are added to a grid in its rightmost occupied column
    or to the right of it, with orders greater than those of the cells
    already there, and the cells of the grown grid carry pairwise distinct
    orders, every mark the builder gave before is given again, with the
    same order and the same [repetition], at the same place of the output:
    the earlier output is a prefix of the later one. *)
Theorem marks_kept_when_appended
    (before after : RoadArray BigRoadItem.t) (rowGap : DownRoadGap)
    (out : list DownRoadItem.t) :
  appendedRight before after →
  uniqueOrders after →
  generateDownRoadData before rowGap = Ok out →
  ∃ added, generateDownRoadData after rowGap = Ok (out ++ added).
Proof.
  intros Happended Hunique Hout.
  destruct (beginIndex before rowGap) as [[b|]|e] eqn:Hbegin.
  - rewrite (generateDownRoadData_begin _ _ _ Hbegin) in Hout.
    injection Hout as <-.
    rewrite (generateDownRoadData_begin after rowGap b)
      by (by eapply appended_beginIndex).
    destruct (appended_emittingCells before after Happended b Hunique)
      as [added ->].
    exists (markOf after rowGap <$> added). rewrite fmap_app. do 2 f_equal.
    apply list_fmap_ext. intros i item Hitem. symmetry.
    apply (appended_markOf before after Happended).
    apply list_elem_of_lookup_2, elem_of_emittingCells in Hitem as [_ Hitem].
    by apply elem_of_recordedCells.
  - rewrite (generateDownRoadData_no_begin _ _ Hbegin) in Hout.
    injection Hout as <-.
    destruct (proj1 (generateDownRoadData_rows after rowGap)) as [out' Hout'].
    { destruct Happended as (Hrows & _).
      assert (2 ≤ length before)%nat; [|lia].
      apply (generateDownRoadData_rows before rowGap).
      rewrite (generateDownRoadData_no_begin _ _ Hbegin). by eexists. }
    by exists out'.
  - by rewrite (generateDownRoadData_throw _ _ _ Hbegin) in Hout.
Qed.

Lemma twoColumns_appendedRight : appendedRight twoColumns threeColumns.
Proof.
  split; [simpl; lia|]. split; [|split].
  - intros r c cell Hcell.
    destruct r as [|[|r]], c as [|[|c]]; simpl in *; done.
  - intros r c cell c' r' Hcell Hlt.
    destruct r as [|[|r]], c as [|[|c]]; simpl in Hcell; try done;
      destruct c' as [|[|c']]; try lia;
      destruct r' as [|[|r']]; reflexivity.
  - intros r c cell r' c' cell' Hafter Hbefore Hold.
    destruct r as [|[|r]], c as [|[|[|c]]]; try done;
      destruct r' as [|[|r']], c' as [|[|c']]; try done;
      injection Hafter as <-; injection Hold as <-; simpl; lia.
Qed.

Lemma marks_kept_when_appended_witness :
  ∃ added,
    generateDownRoadData threeColumns BigEyeRoadGap
    = Ok ([DownRoadItem.new 2 false] ++ added).
Proof.
  apply (marks_kept_when_appended twoColumns threeColumns BigEyeRoadGap).
  - apply twoColumns_appendedRight.
  - apply uniqueOrders_NoDup. apply (bool_decide_unpack _).
    vm_compute. reflexivity.
  - reflexivity.
Defined.

(** ** Grids without row 1 *)

(** C3 fails on the code: on a grid of a single row the cell at (row 1,
    column g) is absent, so the claim takes the cell at (row 0, column
    g + 1), or returns the empty sequence when that is absent too; the
    builder instead reads [bigRoadGraph[1][rowGap]] of a row that does not
    exist and throws a [TypeError]. On [oneRowGrid] with the gap 1 the cell
    at (0, 2) is present with the order 2, and yet no [beginIndex] is
    computed and no sequence returned; the same holds on every grid of one
    row, whatever its cells. *)
Theorem beginIndex_one_row_grid :
  itemAt oneRowGrid 1 (gapValue BigEyeRoadGap) = None
  ∧ itemAt oneRowGrid 0 (gapValue BigEyeRoadGap + 1)
    = Some (BigRoadItem.new 2)
  ∧ beginIndex oneRowGrid BigEyeRoadGap = Throw TypeError
  ∧ generateDownRoadData oneRowGrid BigEyeRoadGap = Throw TypeError
  ∧ (∀ row rowGap, beginIndex [row] rowGap = Throw TypeError).
Proof.
  split; [reflexivity|]. split; [reflexivity|]. split; [reflexivity|].
  split; [reflexivity|].
  intros row rowGap. apply beginIndex_no_row1. simpl. lia.
Qed.

(** C5 fails on the code: when the primary grid of the simulated history
    has no row 1, as for a road of one row, the prediction throws the
    [TypeError] of the builder instead of returning a colour or
    "unknown". *)
Theorem prediction_throws_without_row1
    (SharedBigRoad_rawArray :
       number → number → list RoundResult.t → RoadArray BigRoadItem.t)
    (this : DownRoad.t) (fakeNextRound : positive)
    (downRoadGap : DownRoadGap) (σ : Store)
    (history : list positive) (vs : list RoundResult.t) (fv : RoundResult.t) :
  arrays σ !! DownRoad.roundResults this = Some history →
  holds σ history vs →
  objects σ !! fakeNextRound = Some fv →
  (length (simulatedGrid SharedBigRoad_rawArray this vs fv) < 2)%nat →
  (getPrediction SharedBigRoad_rawArray this fakeNextRound downRoadGap σ).1
  = Throw TypeError.
Proof.
  intros Hhistory Hholds Hfake Hrows.
  destruct (getPrediction_run SharedBigRoad_rawArray this fakeNextRound
              downRoadGap σ history vs fv Hhistory Hholds Hfake)
    as (copies & σ' & Hrun & _).
  rewrite Hrun. simpl.
  by rewrite (generateDownRoadData_throw _ _ TypeError)
    by (by apply beginIndex_no_row1).
Qed.

Lemma prediction_throws_without_row1_witness :
  (getPrediction oneRowRoad oneByTen 4%positive BigEyeRoadGap threeRounds).1
  = Throw TypeError.
Proof.
  apply (prediction_throws_without_row1 oneRowRoad oneByTen 4%positive
           BigEyeRoadGap threeRounds [1%positive; 2%positive; 3%positive]
           [RoundResult.new 0 8 BankerWin NoPair;
            RoundResult.new 1 7 PlayerWin NoPair;
            RoundResult.new 2 9 BankerWin BankerPair]
           (RoundResult.new 3 0 PlayerWin NoPair)).
  - reflexivity.
  - repeat constructor.
  - reflexivity.
  - simpl. lia.
Defined.
